(** * SketchUpNET: the scene-graph loader of [SketchUpNET.cpp]

    A shallow embedding of the [SketchUp] class of
    [src/SketchUpNET/SketchUpNET.cpp]: the load and save operations
    ([LoadModel], [SaveAs], [AppendToModel], [WriteNewModel]), the reference
    resolver ([FixRefs]) and the material propagator ([FixMaterialRefs]).

    Conventions of the embedding.
    - A managed object whose fields are mutated after construction (an
      [Instance], through its [Parent] field) is an identity plus a cell in
      a store; objects that are only read are plain values.  The store
      outlives an operation: [LoadModel] takes the store that the earlier
      operations left and returns the one it leaves.
    - A [for each] loop is a fold over the enumerated list.
    - The recursion of [FixRefs] is unbounded in the source; the embedding
      bounds its depth by a fuel argument and returns [None] when the bound
      is hit.  "The call returns" is "some fuel gives [Some]".
    - A managed exception leaving an operation is the completion [Thrown].
    - The calls into the SketchUp C API that open, change, save or release a
      model are recorded in a call log, in program order. *)

From stdpp Require Import gmap strings list.

(** ** Entities

    The entity classes are declared in headers that are not part of
    [SketchUpNET.cpp]; each record below keeps the members this file
    reads or writes. *)

(** Modelled from the spec: [Material] (header [Material.h]): a name, which
    is the key of the [Materials] mapping and whose empty value is the
    "unset" sentinel, and colour data that the passes never inspect. *)
Record Material := mkMaterial {
  Material_Name : string;
  Material_Colour : N
}.

(** Modelled from the spec: [Layer] (header [Layer.h]). *)
Record Layer := mkLayer { Layer_Name : string }.

(** Modelled from the spec: [Surface] (header [Surface.h]): the two
    material slots written by [FixMaterialRefs]; the geometry is carried
    as an opaque tag. *)
Record Surface := mkSurface {
  Surface_FrontMaterial : Material;
  Surface_BackMaterial : Material;
  Surface_Geometry : nat
}.

(** Modelled from the spec: [Edge] and [Curve] (headers [Edge.h],
    [Curve.h]) take no part in the hierarchy; they are opaque here. *)
Record Edge := mkEdge { Edge_Geometry : nat }.
Record Curve := mkCurve { Curve_Geometry : nat }.

(** Modelled from the spec: [Instance] (header [Instance.h]).  [ParentID] is
    fixed at extraction time.  The mutable [Parent] field lives in the
    store [Parent] of a [Heap] below, keyed by the instance itself: an
    [Instance] value is the identity of one managed object (the address
    tells apart two placements of the same definition). *)
Record Instance := mkInstance {
  Instance_ParentID : string;
  Instance_Address : nat
}.

#[global] Instance Instance_eq_dec : EqDecision Instance.
Proof. solve_decision. Defined.

#[global] Instance Instance_countable : Countable Instance.
Proof.
  refine (inj_countable'
            (fun i => (Instance_ParentID i, Instance_Address i))
            (fun p => mkInstance p.1 p.2) _).
  by intros [].
Defined.

(** Modelled from the spec: [Component] (header [Component.h]): the
    definition's [Guid] and the instances it owns.  A component object is
    never written by this file, so a reference to it is the value. *)
Record Component := mkComponent {
  Component_Guid : string;
  Component_Instances : list Instance
}.

#[global] Instance Component_eq_dec : EqDecision Component.
Proof. solve_decision. Defined.

(** Modelled from the spec: [Group] (header [Group.h]): a material slot,
    nested groups, surfaces and instances. *)
#[warnings="-register-all"] Inductive Group := mkGroup {
  Group_Material : Material;
  Group_Groups : list Group;
  Group_Surfaces : list Surface;
  Group_Instances : list Instance
}.

(** ** [System::Collections::Generic::Dictionary<String^, V>]

    Entries are kept in insertion order, which is the order in which a
    dictionary that never removed a key enumerates them. *)
Definition Dictionary (V : Type) : Type := list (string * V).

Definition ContainsKey {V} (d : Dictionary V) (key : string) : bool :=
  existsb (fun e => String.eqb e.1 key) d.

(** The indexer [d[key]]; [None] stands for [KeyNotFoundException], which
    the source rules out by testing [ContainsKey] first. *)
Definition Item {V} (d : Dictionary V) (key : string) : option V :=
  snd <$> find (fun e => String.eqb e.1 key) d.

Inductive Exception := ArgumentException | NullReferenceException.

(** [d->Add(key, value)] throws [ArgumentException] on a key already
    present. *)
Definition Add {V} (d : Dictionary V) (key : string) (value : V)
  : Exception + Dictionary V :=
  if ContainsKey d key then inl ArgumentException
  else inr (d ++ [(key, value)]).

(** ** The managed heap seen by the resolver *)

(** [Parent] holds the [Parent] field of every [Instance] object; an absent
    key is [nullptr].  [Expanded] is a ghost log: the component of each
    activation of [FixRefs(Component^)] since the current load began, in
    call order. *)
Record Heap := mkHeap {
  Parent : gmap Instance Component;
  Expanded : list Component
}.

(** The heap before the first load. *)
Definition fresh_heap : Heap := mkHeap ∅ [].

(** [var->Parent = o] *)
Definition set_Parent (var : Instance) (o : Component) (h : Heap) : Heap :=
  mkHeap (<[var := o]> (Parent h)) (Expanded h).

Definition enter_FixRefs (comp : Component) (h : Heap) : Heap :=
  mkHeap (Parent h) (Expanded h ++ [comp]).

(** Modelled from the spec: the extractors ([Group::FromSU],
    [Component::FromSU], [Instance::GetEntityInstances]) create the entity
    objects they return, once per load, and the [Parent] of a new
    [Instance] is [nullptr].  [allocate vars h] is the heap once the
    objects [vars] are created: they have no [Parent], and every other
    object, those of the earlier loads among them, keeps its cell. *)
Definition allocate (vars : list Instance) (h : Heap) : Heap :=
  mkHeap (foldr delete (Parent h) vars) (Expanded h).

(** The [Instance] objects created with a group: its own and those of its
    nested groups, at every depth. *)
Fixpoint Group_objects (grp : Group) : list Instance :=
  match grp with
  | mkGroup _ groups _ instances =>
      instances ++ concat (map Group_objects groups)
  end.

(** ** Reference resolver (lines 233-240 and 416-442) *)

(** [for each (x in l) body], where the body may fail to return. *)
Definition for_each {A S : Type} (body : A -> S -> option S)
  : list A -> S -> option S :=
  fix loop l st :=
    match l with
    | [] => Some st
    | x :: l' =>
        match body x st with
        | Some st' => loop l' st'
        | None => None
        end
    end.

(** The body shared by the three resolving loops:
[[
    if (Components->ContainsKey(var->ParentID)) {
        System::Object^ o = Components[var->ParentID];
        var->Parent = o;
        FixRefs(Components[var->ParentID]);   // absent in LoadModel's loop
    }
]]
    [descend] is the recursive call. *)
Definition resolve (Components : Dictionary Component)
    (descend : Component -> Heap -> option Heap)
    (var : Instance) (h : Heap) : option Heap :=
  match Item Components (Instance_ParentID var) with
  | Some o => descend o (set_Parent var o h)
  | None => Some h
  end.

(** [void FixRefs(Component^ comp)]: [fuel] bounds the depth of the
    recursion. *)
Fixpoint FixRefs (fuel : nat) (Components : Dictionary Component)
    (comp : Component) (h : Heap) : option Heap :=
  match fuel with
  | 0 => None
  | S fuel' =>
      for_each (resolve Components (FixRefs fuel' Components))
               (Component_Instances comp) (enter_FixRefs comp h)
  end.

(** [void FixRefs(Group^ comp)]: the same loop over the group's own
    instances; it descends into the [Component^] overload. *)
Definition FixRefs_Group (fuel : nat) (Components : Dictionary Component)
    (comp : Group) (h : Heap) : option Heap :=
  for_each (resolve Components (FixRefs fuel Components))
           (Group_Instances comp) h.

(** ** Material propagator (lines 396-414) *)

Definition unset (m : Material) : bool := String.eqb (Material_Name m) "".

(** The body of the loop over [grp->Surfaces]. *)
Definition FixSurface (parentMaterial : Material) (s : Surface) : Surface :=
  mkSurface
    (if unset (Surface_FrontMaterial s) then parentMaterial
     else Surface_FrontMaterial s)
    (if unset (Surface_BackMaterial s) then parentMaterial
     else Surface_BackMaterial s)
    (Surface_Geometry s).

(** [g->Material = m] *)
Definition set_Material (m : Material) (g : Group) : Group :=
  mkGroup m (Group_Groups g) (Group_Surfaces g) (Group_Instances g).

(** [FixMaterialRefs_with m grp] is [FixMaterialRefs] run on [grp] once its
    material slot holds [m]: the source assigns [g->Material] and then
    calls [FixMaterialRefs(g)], and this form keeps the recursion
    structural.  [FixMaterialRefs_unfold] below gives the equation in the
    shape of the source. *)
Fixpoint FixMaterialRefs_with (m : Material) (grp : Group) : Group :=
  match grp with
  | mkGroup _ groups surfaces instances =>
      mkGroup m
        (map (fun g =>
                FixMaterialRefs_with
                  (if unset (Group_Material g) then m else Group_Material g) g)
             groups)
        (map (FixSurface m) surfaces)
        instances
  end.

(** [void FixMaterialRefs(Group^ grp)] *)
Definition FixMaterialRefs (grp : Group) : Group :=
  FixMaterialRefs_with (Group_Material grp) grp.

(** ** The external file library

    The SketchUp C API is a collaborator: the embedding takes its answers
    as data and records the calls made to it. *)

(** Modelled from the spec: the load-status signal of
    [SUModelCreateFromFileWithStatus] (header [SketchUpAPI/model/model.h]):
    success, success for a file written by a newer version, or one of the
    failure kinds. *)
Inductive LoadFailure := InvalidPath | CorruptFile | UnsupportedFormat.

Inductive SUModelLoadStatus :=
| SUModelLoadStatus_Success
| SUModelLoadStatus_Success_MoreRecent
| SUModelLoadStatus_Failure (kind : LoadFailure).

(** [status == SUModelLoadStatus_Success_MoreRecent] *)
Definition is_Success_MoreRecent (status : SUModelLoadStatus) : bool :=
  match status with
  | SUModelLoadStatus_Success_MoreRecent => true
  | _ => false
  end.

(** Modelled from the spec: [SUResult] (header [SketchUpAPI/common.h]); the
    source only compares it with [SU_ERROR_NONE]. *)
Inductive SUResult := SU_ERROR_NONE | SU_ERROR_OTHER (code : nat).

Definition is_SU_ERROR_NONE (res : SUResult) : bool :=
  match res with SU_ERROR_NONE => true | SU_ERROR_OTHER _ => false end.

(** [public enum class SKPVersion] (lines 50-61): a managed enumeration
    over [int].  Its named values are 0 to 8 in the order of the
    declaration; a variable of the type holds an [int], which a cast can
    make any other value. *)
Definition SKPVersion : Type := Z.

Definition V2013 : SKPVersion := 0%Z.
Definition V2014 : SKPVersion := 1%Z.
Definition V2015 : SKPVersion := 2%Z.
Definition V2016 : SKPVersion := 3%Z.
Definition V2017 : SKPVersion := 4%Z.
Definition V2018 : SKPVersion := 5%Z.
Definition V2019 : SKPVersion := 6%Z.
Definition V2020 : SKPVersion := 7%Z.
Definition V2021 : SKPVersion := 8%Z.

(** Modelled from the spec: [SUModelVersion] (header
    [SketchUpAPI/model/model.h]), the versions that [ToSUVersion] names. *)
Inductive SUModelVersion :=
| SUModelVersion_SU2013 | SUModelVersion_SU2014 | SUModelVersion_SU2015
| SUModelVersion_SU2016 | SUModelVersion_SU2017 | SUModelVersion_SU2018
| SUModelVersion_SU2019 | SUModelVersion_SU2020 | SUModelVersion_SU2021.

(** What the library and the [FromSU] extractors of the entity classes
    yield for one file: the status and the flat tables, in the order in
    which [LoadModel] reads them. *)
Record SUFile := mkSUFile {
  file_status : SUModelLoadStatus;
  file_materials : list Material;
  file_layers : list Layer;
  file_groups : list Group;
  file_components : list Component;
  file_surfaces : list Surface;
  file_curves : list Curve;
  file_edges : list Edge;
  file_instances : list Instance
}.

(** The library's answers: the file found at each path, and the result of
    [SUModelCreate]. *)
Record SketchUpAPI := mkSketchUpAPI {
  model_at : string -> SUFile;
  new_model : SUResult
}.

(** The recorded calls. *)
Inductive SUCall :=
| SUInitialize
| SUTerminate
| SUModelCreateFromFileWithStatus (path : string)
| SUModelCreate
| SUEntitiesAddFaces (faces : list Surface)
| SUEntitiesAddEdges (edges : list Edge)
| SUEntitiesAddCurves (curves : list Curve)
| SUModelSaveToFile (path : string)
| SUModelSaveToFileWithVersion (path : string) (version : SUModelVersion)
| SUModelRelease.

(** ** The [SketchUp] object (lines 66-114)

    Every collection member is a handle; [None] is [nullptr], the value it
    has until [LoadModel] assigns it. *)
Record SketchUp := mkSketchUp {
  Surfaces : option (list Surface);
  Layers : option (list Layer);
  Groups : option (list Group);
  Components : option (Dictionary Component);
  Materials : option (Dictionary Material);
  Instances : option (list Instance);
  Curves : option (list Curve);
  Edges : option (list Edge);
  MoreRecentFileVersion : bool
}.

Definition set_MoreRecentFileVersion (b : bool) (this : SketchUp) : SketchUp :=
  mkSketchUp (Surfaces this) (Layers this) (Groups this) (Components this)
             (Materials this) (Instances this) (Curves this) (Edges this) b.

(** How an operation ends, the object it leaves and the calls it made. *)
Inductive Completion := Returned (value : bool) | Thrown (e : Exception).

Record Exit := mkExit {
  completion : Completion;
  object : SketchUp;
  calls : list SUCall
}.

(** [for each] with a body that may throw; on a throw the state reached so
    far is kept. *)
Definition try_each {A S : Type} (body : A -> S -> Exception + S)
  : list A -> S -> (Exception * S) + S :=
  fix loop l st :=
    match l with
    | [] => inr st
    | x :: l' =>
        match body x st with
        | inr st' => loop l' st'
        | inl e => inl (e, st)
        end
    end.

(** Lines 177-181:
[[
    if (!Materials->ContainsKey(mat->Name))
        Materials->Add(mat->Name, mat);
]] *)
Definition add_Material (mat : Material) (Materials : Dictionary Material)
  : Exception + Dictionary Material :=
  if negb (ContainsKey Materials (Material_Name mat))
  then Add Materials (Material_Name mat) mat
  else inr Materials.

(** Lines 222-225: [Components->Add(component->Guid, component)]. *)
Definition add_Component (component : Component)
    (Components : Dictionary Component) : Exception + Dictionary Component :=
  Add Components (Component_Guid component) component.

(** Lines 233-253, the resolution pass of [LoadModel]: the model's own
    instances (no descent), every entry of [Components], then every
    top-level group, with [FixMaterialRefs] on the group when asked. *)
Definition resolve_model (fuel : nat) (Components : Dictionary Component)
    (Instances : list Instance) (Groups : list Group)
    (inheritGroupMaterials : bool) (h : Heap) : option (Heap * list Group) :=
  match for_each (resolve Components (fun _ h => Some h)) Instances h with
  | None => None
  | Some h1 =>
      match for_each (fun cmp h => FixRefs fuel Components cmp.2 h)
                     Components h1 with
      | None => None
      | Some h2 =>
          for_each
            (fun var st =>
               match FixRefs_Group fuel Components var st.1 with
               | None => None
               | Some h' =>
                   Some (h', st.2 ++ [if inheritGroupMaterials
                                       then FixMaterialRefs var else var])
               end)
            Groups (h2, [])
      end
  end.

(** [bool LoadModel(String^ filename, bool includeMeshes,
    bool inheritGroupMaterials)] (lines 143-260).  [includeMeshes] only
    selects what the extractors put into the mesh data, which is not part
    of the embedding.

    [heap] is the heap before the call.  The links it holds are kept: the
    source assigns [Parent] in the resolution pass only, which an exit by
    an exception does not reach.  The groups are created at line 207, the
    definitions at line 223 (the one whose [Add] throws is dropped with its
    objects), the instances of the model root at line 231.  The ghost log
    starts empty: it is the log of this call. *)
Definition LoadModel (fuel : nat) (api : SketchUpAPI) (this : SketchUp)
    (heap : Heap) (filename : string)
    (includeMeshes inheritGroupMaterials : bool)
  : option (Exit * Heap) :=
  let file := model_at api filename in
  let opened := [SUInitialize; SUModelCreateFromFileWithStatus filename] in
  let flag := is_Success_MoreRecent (file_status file) in
  let h0 := mkHeap (Parent heap) [] in
  match try_each add_Material (file_materials file) [] with
  | inl (e, materials) =>
      Some (mkExit (Thrown e)
              (mkSketchUp (Surfaces this) (Some []) (Some []) (Some [])
                 (Some materials) (Instances this) (Curves this) (Edges this)
                 flag)
              opened, h0)
  | inr materials =>
      let layers := file_layers file in
      let groups := file_groups file in
      let h1 := allocate (concat (Group_objects <$> groups)) h0 in
      match try_each add_Component (file_components file) [] with
      | inl (e, components) =>
          Some (mkExit (Thrown e)
                  (mkSketchUp (Surfaces this) (Some layers) (Some groups)
                     (Some components) (Some materials) (Instances this)
                     (Curves this) (Edges this) flag)
                  opened,
                allocate (concat (Component_Instances <$> components.*2)) h1)
      | inr components =>
          let h2 :=
            allocate (concat (Component_Instances <$> components.*2)) h1 in
          let h3 := allocate (file_instances file) h2 in
          match resolve_model fuel components (file_instances file) groups
                  inheritGroupMaterials h3 with
          | None => None
          | Some (h, groups') =>
              Some (mkExit (Returned true)
                      (mkSketchUp (Some (file_surfaces file)) (Some layers)
                         (Some groups') (Some components) (Some materials)
                         (Some (file_instances file))
                         (Some (file_curves file)) (Some (file_edges file))
                         flag)
                      (opened ++ [SUModelRelease; SUTerminate]), h)
          end
      end
  end.

(** [bool LoadModel(String^ filename)] (lines 121-124) and
    [bool LoadModel(String^ filename, bool includeMeshes)] (lines 132-135). *)
Definition LoadModel_filename (fuel : nat) (api : SketchUpAPI)
    (this : SketchUp) (heap : Heap) (filename : string)
  : option (Exit * Heap) :=
  LoadModel fuel api this heap filename false false.

Definition LoadModel_includeMeshes (fuel : nat) (api : SketchUpAPI)
    (this : SketchUp) (heap : Heap) (filename : string)
    (includeMeshes : bool) : option (Exit * Heap) :=
  LoadModel fuel api this heap filename includeMeshes false.

(** [SUModelVersion ToSUVersion(SKPVersion version)] (lines 371-394): one
    [case] for each of the named values [V2013] (0) to [V2021] (8), and
    the [default] branch for every other value. *)
Definition ToSUVersion (version : SKPVersion) : SUModelVersion :=
  match version with
  | 0%Z => SUModelVersion_SU2013
  | 1%Z => SUModelVersion_SU2014
  | 2%Z => SUModelVersion_SU2015
  | 3%Z => SUModelVersion_SU2016
  | 4%Z => SUModelVersion_SU2017
  | 5%Z => SUModelVersion_SU2018
  | 6%Z => SUModelVersion_SU2019
  | 7%Z => SUModelVersion_SU2020
  | 8%Z => SUModelVersion_SU2021
  | _ => SUModelVersion_SU2021
  end.

(** [bool SaveAs(String^ filename, SKPVersion version, String^ newFilename)]
    (lines 269-290). *)
Definition SaveAs (api : SketchUpAPI) (this : SketchUp) (filename : string)
    (version : SKPVersion) (newFilename : string) : Exit :=
  let status := file_status (model_at api filename) in
  mkExit (Returned true)
    (set_MoreRecentFileVersion (is_Success_MoreRecent status) this)
    [SUInitialize; SUModelCreateFromFileWithStatus filename;
     SUModelSaveToFileWithVersion newFilename (ToSUVersion version);
     SUModelRelease; SUTerminate].

(** The three [SUEntitiesAdd...] statements shared by [AppendToModel] and
    [WriteNewModel]: each dereferences a collection handle of the object
    ([Surfaces->Count] and so on), then makes its call.  The result is
    the calls made and whether a dereference of [nullptr] threw. *)
Definition add_entities (this : SketchUp) : list SUCall * option Exception :=
  match Surfaces this with
  | None => ([], Some NullReferenceException)
  | Some faces =>
      match Edges this with
      | None => ([SUEntitiesAddFaces faces], Some NullReferenceException)
      | Some edges =>
          match Curves this with
          | None => ([SUEntitiesAddFaces faces; SUEntitiesAddEdges edges],
                     Some NullReferenceException)
          | Some curves =>
              ([SUEntitiesAddFaces faces; SUEntitiesAddEdges edges;
                SUEntitiesAddCurves curves], None)
          end
      end
  end.

(** [bool AppendToModel(String^ filename)] (lines 296-327). *)
Definition AppendToModel (api : SketchUpAPI) (this : SketchUp)
    (filename : string) : Exit :=
  let status := file_status (model_at api filename) in
  let this' := set_MoreRecentFileVersion (is_Success_MoreRecent status) this in
  let opened := [SUInitialize; SUModelCreateFromFileWithStatus filename] in
  match add_entities this' with
  | (added, Some e) => mkExit (Thrown e) this' (opened ++ added)
  | (added, None) =>
      mkExit (Returned true) this'
        (opened ++ added ++ [SUModelSaveToFile filename; SUModelRelease;
                             SUTerminate])
  end.

(** [bool WriteNewModel(String^ filename, SKPVersion version)]
    (lines 345-367). *)
Definition WriteNewModel (api : SketchUpAPI) (this : SketchUp)
    (filename : string) (version : SKPVersion) : Exit :=
  let opened := [SUInitialize; SUModelCreate] in
  if negb (is_SU_ERROR_NONE (new_model api))
  then mkExit (Returned false) this opened
  else
    match add_entities this with
    | (added, Some e) => mkExit (Thrown e) this (opened ++ added)
    | (added, None) =>
        mkExit (Returned true) this
          (opened ++ added ++
           [SUModelSaveToFileWithVersion filename (ToSUVersion version);
            SUModelRelease; SUTerminate])
    end.

(** [bool WriteNewModel(String^ filename)] (lines 334-337). *)
Definition WriteNewModel_latest (api : SketchUpAPI) (this : SketchUp)
    (filename : string) : Exit :=
  WriteNewModel api this filename V2021.

(** * Vocabulary of the statements *)

(** ** The resolver *)

(** [well_ranked Components rank] checks that every reference from a
    definition of the mapping to a definition of the mapping goes down in
    [rank]: the definition graph has no cycle. *)
Definition well_ranked (Components : Dictionary Component)
    (rank : Component -> nat) : bool :=
  forallb (fun e =>
    forallb (fun var =>
      match Item Components (Instance_ParentID var) with
      | Some o => rank o <? rank e.2
      | None => true
      end) (Component_Instances e.2)) Components.

(** A fuel that is enough for every definition of the mapping. *)
Definition enough_fuel (Components : Dictionary Component)
    (rank : Component -> nat) : nat :=
  S (foldr Nat.max 0 (rank <$> Components.*2)).

(** [linked Components P var]: the [Parent] cell of [var] holds the
    definition that its [ParentID] names.  [cellwise Components h h']: every
    cell of [h'] is the cell of [h] or is linked. *)
Definition linked (Components : Dictionary Component)
    (P : gmap Instance Component) (var : Instance) : Prop :=
  exists o,
    Item Components (Instance_ParentID var) = Some o /\ P !! var = Some o.

Definition cellwise (Components : Dictionary Component) (h h' : Heap) : Prop :=
  forall var,
    Parent h' !! var = Parent h !! var \/ linked Components (Parent h') var.

(** A step is [replayable] when, run from any heap that already holds the
    links its first run left, it returns and writes nothing new. *)
Definition replayable (Components : Dictionary Component)
    (f : Heap -> option Heap) : Prop :=
  forall h h', f h = Some h' ->
    cellwise Components h h' /\
    forall g,
      (forall var, linked Components (Parent h') var ->
                   linked Components (Parent g) var) ->
      exists g', f g = Some g' /\ Parent g' = Parent g.

(** [resolve_model] threads the heap and the list of groups through one
    loop; the two do not interact.  [Resolver] is its effect on the heap,
    [Propagator] its effect on the groups. *)
Definition Resolver (fuel : nat) (Components : Dictionary Component)
    (Instances : list Instance) (Groups : list Group) (h : Heap)
  : option Heap :=
  match for_each (resolve Components (fun _ h => Some h)) Instances h with
  | None => None
  | Some h1 =>
      match for_each (fun cmp h => FixRefs fuel Components cmp.2 h)
                     Components h1 with
      | None => None
      | Some h2 => for_each (FixRefs_Group fuel Components) Groups h2
      end
  end.

Definition Propagator (inheritGroupMaterials : bool) (Groups : list Group)
  : list Group :=
  (fun var => if inheritGroupMaterials then FixMaterialRefs var else var)
    <$> Groups.

(** [times o log]: how often [FixRefs] was entered on the definition [o].
    [calls_into l o]: how many instances of [l] name [o].
    [spawned log o]: how many instances naming [o] were met in all the
    expansions of [log]. *)
Definition times (o : Component) (log : list Component) : nat :=
  length (filter (fun c => c = o) log).

Definition calls_into (Components : Dictionary Component)
    (l : list Instance) (o : Component) : nat :=
  length
    (filter (fun var => Item Components (Instance_ParentID var) = Some o) l).

Definition spawned (Components : Dictionary Component)
    (log : list Component) (o : Component) : nat :=
  sum_list_with (fun c => calls_into Components (Component_Instances c) o) log.

(** [flows seed h h']: between [h] and [h'] the log grew by expansions of
    which [seed] were started from outside, and every other one by an
    instance met in an expansion of the same stretch. *)
Definition flows (Components : Dictionary Component)
    (seed : Component -> nat) (h h' : Heap) : Prop :=
  exists log, Expanded h' = Expanded h ++ log /\
    forall o, times o log = seed o + spawned Components log o.

(** ** The dictionaries and the object after a load *)

(** The first material of the table with a given name. *)
Definition first_named (materials : list Material) (name : string)
  : option Material :=
  find (fun m => String.eqb (Material_Name m) name) materials.

(** The [Materials] dictionary after the loop of lines 177-181. *)
Definition Materials_of (materials : list Material) : Dictionary Material :=
  match try_each add_Material materials [] with
  | inr d => d
  | inl (_, d) => d
  end.

(** The [Components] dictionary after the loop of lines 222-225, when no
    [Add] throws. *)
Definition entries (components : list Component) : Dictionary Component :=
  (fun c => (Component_Guid c, c)) <$> components.

(** [loadable rank file]: the definitions of the file have distinct [Guid]s
    and the references between them go down in [rank]. *)
Definition loadable (rank : Component -> nat) (file : SUFile) : Prop :=
  NoDup (Component_Guid <$> file_components file) /\
  well_ranked (entries (file_components file)) rank = true.

Definition loaded (file : SUFile) (inheritGroupMaterials : bool) : SketchUp :=
  mkSketchUp (Some (file_surfaces file)) (Some (file_layers file))
    (Some (Propagator inheritGroupMaterials (file_groups file)))
    (Some (entries (file_components file)))
    (Some (Materials_of (file_materials file)))
    (Some (file_instances file)) (Some (file_curves file))
    (Some (file_edges file))
    (is_Success_MoreRecent (file_status file)).

(** ** The material propagator *)

(** The value a slot takes: its own when explicit, the inherited one
    otherwise. *)
Definition pick (inherited own : Material) : Material :=
  if unset own then inherited else own.

(** The group reached from [grp] by taking, at every step, the child with
    the given index. *)
Fixpoint group_at (path : list nat) (grp : Group) : option Group :=
  match path with
  | [] => Some grp
  | i :: path' =>
      match Group_Groups grp !! i with
      | Some g => group_at path' g
      | None => None
      end
  end.

(** The material slots of the groups met below [grp] on that path, from
    the outermost to the innermost. *)
Fixpoint materials_to (path : list nat) (grp : Group) : list Material :=
  match path with
  | [] => []
  | i :: path' =>
      match Group_Groups grp !! i with
      | Some g => Group_Material g :: materials_to path' g
      | None => []
      end
  end.

(** Induction on groups, with the hypothesis for every nested group. *)
Section Group_induction.
Variable P : Group -> Prop.
Hypothesis step : forall m groups surfaces instances,
  Forall P groups -> P (mkGroup m groups surfaces instances).

Fixpoint Group_nested_ind (grp : Group) : P grp :=
  match grp with
  | mkGroup m groups surfaces instances =>
      step m groups surfaces instances
        ((fix all (l : list Group) : Forall P l :=
            match l with
            | [] => @List.Forall_nil _ P
            | g :: l' =>
                @List.Forall_cons _ P g l' (Group_nested_ind g) (all l')
            end) groups)
  end.
End Group_induction.

(** ** Further vocabulary *)

(** The instances the resolution pass of [LoadModel] runs over: those of
    the model root, of every definition of the file and of every top-level
    group.  The instances of nested groups are not among them:
    [FixRefs(Group^)] reads [comp->Instances] only. *)
Definition resolved_instances (file : SUFile) : list Instance :=
  file_instances file
  ++ concat (Component_Instances <$> file_components file)
  ++ concat (Group_Instances <$> file_groups file).

(** The [Instance] objects a load creates: those of the model root, of
    every definition and of every group, at every depth. *)
Definition objects_of (file : SUFile) : list Instance :=
  file_instances file
  ++ concat (Component_Instances <$> file_components file)
  ++ concat (Group_objects <$> file_groups file).

(** The heap in which the resolution pass of a load that does not throw
    starts: the objects of the file are created, the ghost log is empty. *)
Definition extraction (file : SUFile) (heap : Heap) : Heap :=
  allocate (file_instances file)
    (allocate (concat (Component_Instances <$> file_components file))
       (allocate (concat (Group_objects <$> file_groups file))
          (mkHeap (Parent heap) []))).

(** The values of [SKPVersion] that the declaration names. *)
Definition named : list SKPVersion :=
  [V2013; V2014; V2015; V2016; V2017; V2018; V2019; V2020; V2021].

(** The least recursion depth, up to [bound], at which [FixRefs] returns on
    [c]; [S bound] when there is none. *)
Definition first_returning (Components : Dictionary Component) (bound : nat)
    (c : Component) : nat :=
  match list_find (fun n => is_Some (FixRefs n Components c fresh_heap))
                  (seq 0 (S bound)) with
  | Some (i, _) => i
  | None => S bound
  end.

(** A group with every material slot blanked: what is left is the nesting,
    the geometry and the instances. *)
Definition blank : Material := mkMaterial "" 0.

Definition Surface_skeleton (s : Surface) : Surface :=
  mkSurface blank blank (Surface_Geometry s).

Fixpoint skeleton (grp : Group) : Group :=
  match grp with
  | mkGroup _ groups surfaces instances =>
      mkGroup blank (map skeleton groups) (map Surface_skeleton surfaces)
              instances
  end.

(** Every material slot below the group (the slots of its nested groups and
    of all the surfaces, not its own) holds an explicit material. *)
Definition Surface_explicit (s : Surface) : bool :=
  negb (unset (Surface_FrontMaterial s))
  && negb (unset (Surface_BackMaterial s)).

Fixpoint all_explicit (grp : Group) : bool :=
  match grp with
  | mkGroup _ groups surfaces _ =>
      forallb (fun g => negb (unset (Group_Material g)) && all_explicit g)
              groups
      && forallb Surface_explicit surfaces
  end.

(** * Sample files *)

Definition empty_object : SketchUp :=
  mkSketchUp None None None None None None None None false.

(** A file whose definitions reference each other: [A] places an instance
    of [B], and [B] an instance of [A]. *)
Definition cyclic_A : Component := mkComponent "A" [mkInstance "B" 1].
Definition cyclic_B : Component := mkComponent "B" [mkInstance "A" 2].

Definition cyclic_file : SUFile :=
  mkSUFile SUModelLoadStatus_Success [] [] [] [cyclic_A; cyclic_B]
           [] [] [] [].

Definition cyclic_api : SketchUpAPI :=
  mkSketchUpAPI (fun _ => cyclic_file) SU_ERROR_NONE.

(** A file in which [A] and [B] each place one instance of [C], and [C]
    places an instance of a definition that is not in the file. *)
Definition diamond_A : Component := mkComponent "A" [mkInstance "C" 1].
Definition diamond_B : Component := mkComponent "B" [mkInstance "C" 2].
Definition diamond_C : Component := mkComponent "C" [mkInstance "D" 3].

Definition diamond_file (components : list Component) : SUFile :=
  mkSUFile SUModelLoadStatus_Success [] [] [] components [] [] [] [].

Definition diamond_api (components : list Component) : SketchUpAPI :=
  mkSketchUpAPI (fun _ => diamond_file components) SU_ERROR_NONE.

Definition diamond_rank (c : Component) : nat :=
  if String.eqb (Component_Guid c) "C" then 0 else 1.

(** A house: a window definition placed twice in a wall definition, the
    wall placed in the house next to an instance of a definition the file
    does not hold; two materials share the name [Brick]; a group with
    material [Brick] holds a group without material, which holds a surface
    with only a back material. *)
Definition Brick : Material := mkMaterial "Brick" 1.
Definition Glass : Material := mkMaterial "Glass" 2.
Definition Brick_again : Material := mkMaterial "Brick" 3.
Definition no_material : Material := mkMaterial "" 0.

Definition Window : Component := mkComponent "Window" [].
Definition Wall : Component :=
  mkComponent "Wall" [mkInstance "Window" 1; mkInstance "Window" 2].
Definition House : Component :=
  mkComponent "House" [mkInstance "Wall" 3; mkInstance "Shed" 4].

Definition pane : Surface := mkSurface no_material Glass 7.
Definition inner_group : Group := mkGroup no_material [] [pane] [].
Definition outer_group : Group :=
  mkGroup Brick [inner_group] [] [mkInstance "Window" 5].

Definition house_file : SUFile :=
  mkSUFile SUModelLoadStatus_Success_MoreRecent
    [Brick; Glass; Brick_again] [mkLayer "Layer0"] [outer_group]
    [House; Wall; Window] [pane] [] []
    [mkInstance "House" 6; mkInstance "Garage" 8].

Definition house_api : SketchUpAPI :=
  mkSketchUpAPI
    (fun path => if String.eqb path "house.skp" then house_file
                 else diamond_file [])
    SU_ERROR_NONE.

Definition house_rank (c : Component) : nat :=
  if String.eqb (Component_Guid c) "House" then 2
  else if String.eqb (Component_Guid c) "Wall" then 1 else 0.

(** A file in which two definitions share the [Guid] [Door]. *)
Definition Door : Component := mkComponent "Door" [].
Definition Door_again : Component := mkComponent "Door" [mkInstance "Window" 9].

Definition doors_file : SUFile :=
  mkSUFile SUModelLoadStatus_Success [Brick] [mkLayer "Layer0"] [outer_group]
    [Window; Door; Door_again; Wall] [pane] [mkCurve 1] [mkEdge 2]
    [mkInstance "Door" 10].

Definition doors_api : SketchUpAPI :=
  mkSketchUpAPI (fun _ => doors_file) SU_ERROR_NONE.

(** A group tree in which every slot is explicit, and one whose inner group
    owns an instance. *)
Definition glazed_group : Group :=
  mkGroup Brick [mkGroup Glass [] [mkSurface Glass Brick 1] []]
          [mkSurface Brick Brick 2] [].

Definition nesting_file : SUFile :=
  mkSUFile SUModelLoadStatus_Success [] []
    [mkGroup Brick [mkGroup Glass [] [] [mkInstance "Window" 11]] []
             [mkInstance "Window" 12]]
    [Window] [] [] [] [].

Definition nesting_api : SketchUpAPI :=
  mkSketchUpAPI (fun _ => nesting_file) SU_ERROR_NONE.

(** * Verification *)

(** ** Dictionaries *)

Section Dictionary_facts.
Context {V : Type}.
Implicit Types (d : Dictionary V) (key : string) (value : V).

Lemma Item_nil key : Item (V:=V) [] key = None.
Proof. reflexivity. Qed.

Lemma Item_cons k value d key :
  Item ((k, value) :: d) key =
  if String.eqb k key then Some value else Item d key.
Proof. unfold Item. simpl. by destruct (String.eqb k key). Qed.

Lemma Item_app d1 d2 key :
  Item (d1 ++ d2) key =
  match Item d1 key with Some v => Some v | None => Item d2 key end.
Proof.
  induction d1 as [|[k v] d1 IH]; [done|].
  rewrite <- app_comm_cons, !Item_cons. by destruct (String.eqb k key).
Qed.

Lemma ContainsKey_Item d key :
  ContainsKey d key = true <-> is_Some (Item d key).
Proof.
  induction d as [|[k v] d IH]; simpl.
  - split; [done|]. intros [? ?]. done.
  - rewrite Item_cons. simpl. destruct (String.eqb k key); simpl; [|done].
    split; eauto.
Qed.

Lemma ContainsKey_false d key : ContainsKey d key = false <-> Item d key = None.
Proof.
  rewrite <- not_true_iff_false, ContainsKey_Item, <- eq_None_not_Some. done.
Qed.

Lemma Item_Some_elem d key value :
  Item d key = Some value -> (key, value) ∈ d.
Proof.
  induction d as [|[k v] d IH]; [done|].
  rewrite Item_cons. destruct (String.eqb_spec k key) as [->|Hne].
  - intros [= ->]. apply list_elem_of_here.
  - intros H. apply list_elem_of_further. auto.
Qed.

Lemma Item_None_keys d key : Item d key = None <-> key ∉ d.*1.
Proof.
  induction d as [|[k v] d IH]; simpl.
  - split; [|done]. intros _. apply not_elem_of_nil.
  - rewrite Item_cons, not_elem_of_cons.
    destruct (String.eqb_spec k key) as [->|Hne].
    + split; [done|]. intros [? _]. done.
    + rewrite IH. split; [by split|by intros [_ ?]].
Qed.

Lemma Item_elem_NoDup d key value :
  NoDup d.*1 -> (key, value) ∈ d -> Item d key = Some value.
Proof.
  induction d as [|[k v] d IH]; simpl.
  - intros _ H. by apply elem_of_nil in H.
  - rewrite NoDup_cons, Item_cons. intros [Hk Hd] [Heq|Hin]%elem_of_cons.
    + injection Heq as -> ->. by rewrite String.eqb_refl.
    + destruct (String.eqb_spec k key) as [->|Hne]; [|auto].
      exfalso. apply Hk. change key with ((key, value).1).
      by apply list_elem_of_fmap_2.
Qed.

Lemma Add_fresh d key value :
  Item d key = None -> Add d key value = inr (d ++ [(key, value)]).
Proof. intros H%ContainsKey_false. unfold Add. by rewrite H. Qed.

Lemma Add_present d key value :
  is_Some (Item d key) -> Add d key value = inl ArgumentException.
Proof. intros H%ContainsKey_Item. unfold Add. by rewrite H. Qed.

End Dictionary_facts.

(** [resolve] is the guarded statement of the source: the indexer is only
    reached under [ContainsKey], where it finds the key. *)
Lemma resolve_guarded Components descend var h :
  resolve Components descend var h =
  if ContainsKey Components (Instance_ParentID var)
  then match Item Components (Instance_ParentID var) with
       | Some o => descend o (set_Parent var o h)
       | None => Some h
       end
  else Some h.
Proof.
  unfold resolve.
  destruct (ContainsKey Components (Instance_ParentID var)) eqn:Hkey; [done|].
  apply ContainsKey_false in Hkey. by rewrite Hkey.
Qed.

(** ** Loops *)

Lemma for_each_app {A S} (body : A -> S -> option S) l1 l2 st :
  for_each body (l1 ++ l2) st =
  match for_each body l1 st with
  | Some st' => for_each body l2 st'
  | None => None
  end.
Proof.
  revert st. induction l1 as [|x l1 IH]; intros st; simpl; [done|].
  destruct (body x st); [apply IH|done].
Qed.

(** A relation that holds across every iteration holds across the loop. *)
Lemma for_each_rel {A S} (R : S -> S -> Prop) (body : A -> S -> option S) l :
  (forall st, R st st) ->
  (forall st1 st2 st3, R st1 st2 -> R st2 st3 -> R st1 st3) ->
  (forall x st st', x ∈ l -> body x st = Some st' -> R st st') ->
  forall st st', for_each body l st = Some st' -> R st st'.
Proof.
  intros Hrefl Htrans. induction l as [|x l IH]; intros Hbody st st'; simpl.
  - intros [= ->]. apply Hrefl.
  - destruct (body x st) as [st1|] eqn:Hx; [|done]. intros Hl.
    apply Htrans with st1.
    + eapply Hbody; [apply list_elem_of_here|done].
    + apply IH; [|done]. intros y ? ? Hy. apply Hbody.
      by apply list_elem_of_further.
Qed.

(** A loop whose first iteration does not return, does not return. *)
Lemma for_each_diverges {A S} (body : A -> S -> option S) x l st :
  body x st = None -> for_each body (x :: l) st = None.
Proof. simpl. by intros ->. Qed.

(** A loop whose every iteration returns, returns. *)
Lemma for_each_total {A S} (body : A -> S -> option S) l :
  (forall x st, x ∈ l -> is_Some (body x st)) ->
  forall st, is_Some (for_each body l st).
Proof.
  induction l as [|x l IH]; intros Hbody st; simpl; [by eexists|].
  destruct (Hbody x st) as [st1 ->]; [apply list_elem_of_here|].
  apply IH. intros y ? Hy. apply Hbody. by apply list_elem_of_further.
Qed.

(** What one iteration establishes, and every iteration keeps, holds after
    the loop. *)
Lemma for_each_establish {A S} (Q : S -> Prop) (body : A -> S -> option S) l x :
  (forall y st st', body y st = Some st' -> Q st -> Q st') ->
  (forall st st', body x st = Some st' -> Q st') ->
  x ∈ l ->
  forall st st', for_each body l st = Some st' -> Q st'.
Proof.
  intros Hkeep Hx. induction l as [|y l IH]; intros Hin st st' Hloop.
  - by apply elem_of_nil in Hin.
  - simpl in Hloop. destruct (body y st) as [st1|] eqn:Hy; [|done].
    apply elem_of_cons in Hin as [->|Hin]; [|by eapply IH].
    assert (Q st1) as HQ by (by eapply Hx).
    clear Hy IH. revert st1 HQ Hloop.
    induction l as [|z l IH]; intros st1 HQ Hloop; simpl in Hloop.
    + by injection Hloop as <-.
    + destruct (body z st1) as [st2|] eqn:Hz; [|done].
      apply (IH st2); [by eapply Hkeep|done].
Qed.

Lemma for_each_ext {A S} (body1 body2 : A -> S -> option S) l :
  (forall x st, x ∈ l -> body1 x st = body2 x st) ->
  forall st, for_each body1 l st = for_each body2 l st.
Proof.
  induction l as [|x l IH]; intros Hbody st; simpl; [done|].
  rewrite <- Hbody by apply list_elem_of_here.
  destruct (body1 x st); [|done].
  apply IH. intros y ? Hy. apply Hbody. by apply list_elem_of_further.
Qed.

(** ** The resolver *)

Section Resolver.
Variable Components : Dictionary Component.

(** *** Relations kept by every step

    A reflexive and transitive relation on heaps that holds across the two
    writes of the resolver holds across every loop and every call. *)
Section Step_relation.
Variable R : Heap -> Heap -> Prop.
Hypothesis R_refl : forall h, R h h.
Hypothesis R_trans : forall h1 h2 h3, R h1 h2 -> R h2 h3 -> R h1 h3.
Hypothesis R_set : forall var o h,
  Item Components (Instance_ParentID var) = Some o -> R h (set_Parent var o h).
Hypothesis R_enter : forall comp h, R h (enter_FixRefs comp h).

Lemma resolve_loop_rel descend l h h' :
  (forall o g g', descend o g = Some g' -> R g g') ->
  for_each (resolve Components descend) l h = Some h' -> R h h'.
Proof.
  intros Hdescend. apply for_each_rel; [done|done|].
  intros var g g' _. unfold resolve.
  destruct (Item Components (Instance_ParentID var)) as [o|] eqn:Ho.
  - intros Hd. eapply R_trans; [by apply R_set|by eapply Hdescend].
  - intros [= ->]. apply R_refl.
Qed.

Lemma FixRefs_rel fuel comp h h' :
  FixRefs fuel Components comp h = Some h' -> R h h'.
Proof.
  revert comp h h'. induction fuel as [|fuel IH]; intros comp h h'; [done|].
  simpl. intros Hloop. eapply R_trans; [apply (R_enter comp)|].
  eapply resolve_loop_rel; [|exact Hloop]. intros o g g'. apply IH.
Qed.

Lemma FixRefs_Group_rel fuel comp h h' :
  FixRefs_Group fuel Components comp h = Some h' -> R h h'.
Proof.
  unfold FixRefs_Group. apply resolve_loop_rel. intros o g g'.
  apply FixRefs_rel.
Qed.

End Step_relation.

(** The equation of one activation. *)
Lemma FixRefs_S fuel comp h :
  FixRefs (S fuel) Components comp h =
  for_each (resolve Components (FixRefs fuel Components))
           (Component_Instances comp) (enter_FixRefs comp h).
Proof. reflexivity. Qed.

(** *** More fuel changes nothing *)

Lemma FixRefs_fuel_S fuel comp h h' :
  FixRefs fuel Components comp h = Some h' ->
  FixRefs (S fuel) Components comp h = Some h'.
Proof.
  revert comp h h'. induction fuel as [|fuel IH]; intros comp h h'; [done|].
  intros Hloop. rewrite FixRefs_S. simpl in Hloop. revert Hloop.
  generalize (enter_FixRefs comp h).
  induction (Component_Instances comp) as [|var l IHl]; intros g; [done|].
  cbn [for_each]. unfold resolve at 1 3.
  destruct (Item Components (Instance_ParentID var)) as [o|].
  - destruct (FixRefs fuel Components o (set_Parent var o g)) as [g1|] eqn:Ho;
      [|done].
    rewrite (IH _ _ _ Ho). apply IHl.
  - apply IHl.
Qed.

Lemma FixRefs_fuel_le fuel fuel' comp h h' :
  fuel <= fuel' ->
  FixRefs fuel Components comp h = Some h' ->
  FixRefs fuel' Components comp h = Some h'.
Proof.
  induction 1 as [|n _ IH]; [done|]. intros H. by apply FixRefs_fuel_S, IH.
Qed.

Lemma FixRefs_Group_fuel_le fuel fuel' comp h h' :
  fuel <= fuel' ->
  FixRefs_Group fuel Components comp h = Some h' ->
  FixRefs_Group fuel' Components comp h = Some h'.
Proof.
  intros Hle. unfold FixRefs_Group. revert h.
  induction (Group_Instances comp) as [|var l IHl]; intros g; [done|].
  cbn [for_each]. unfold resolve at 1 3.
  destruct (Item Components (Instance_ParentID var)) as [o|].
  - destruct (FixRefs fuel Components o (set_Parent var o g)) as [g1|] eqn:Ho;
      [|done].
    rewrite (FixRefs_fuel_le _ _ _ _ _ Hle Ho). apply IHl.
  - apply IHl.
Qed.

(** *** Termination on ranked definition graphs *)

Lemma well_ranked_spec rank :
  well_ranked Components rank = true ->
  forall c var o, c ∈ Components.*2 -> var ∈ Component_Instances c ->
    Item Components (Instance_ParentID var) = Some o -> rank o < rank c.
Proof.
  unfold well_ranked. rewrite forallb_forall.
  intros H c var o [[k c'] [-> He]]%list_elem_of_fmap_1 Hvar Ho.
  apply list_elem_of_In, H in He. rewrite forallb_forall in He.
  apply list_elem_of_In, He in Hvar. rewrite Ho in Hvar.
  by apply Nat.ltb_lt in Hvar.
Qed.

Lemma Item_value key o : Item Components key = Some o -> o ∈ Components.*2.
Proof.
  intros H%Item_Some_elem. change o with ((key, o).2).
  by apply list_elem_of_fmap_2.
Qed.

Lemma FixRefs_terminates rank fuel comp h :
  well_ranked Components rank = true ->
  comp ∈ Components.*2 -> rank comp < fuel ->
  is_Some (FixRefs fuel Components comp h).
Proof.
  intros Hrank. revert comp h.
  induction fuel as [|fuel IH]; intros comp h Hcomp Hlt; [lia|].
  simpl. apply for_each_total. intros var g Hvar. unfold resolve.
  destruct (Item Components (Instance_ParentID var)) as [o|] eqn:Ho;
    [|by eexists].
  apply IH; [by eapply Item_value|].
  pose proof (well_ranked_spec rank Hrank comp var o Hcomp Hvar Ho). lia.
Qed.

Lemma enough_fuel_bound rank c :
  c ∈ Components.*2 -> rank c < enough_fuel Components rank.
Proof.
  unfold enough_fuel. induction (Components.*2) as [|c' l IH]; csimpl.
  - intros H. by apply elem_of_nil in H.
  - intros [->|Hin]%elem_of_cons; [lia|]. specialize (IH Hin). lia.
Qed.

Lemma FixRefs_Group_terminates rank fuel comp h :
  well_ranked Components rank = true -> enough_fuel Components rank <= fuel ->
  is_Some (FixRefs_Group fuel Components comp h).
Proof.
  intros Hrank Hfuel. unfold FixRefs_Group. apply for_each_total.
  intros var g _. unfold resolve.
  destruct (Item Components (Instance_ParentID var)) as [o|] eqn:Ho;
    [|by eexists].
  apply (FixRefs_terminates rank); [done|by eapply Item_value|].
  pose proof (enough_fuel_bound rank o (Item_value _ _ Ho)). lia.
Qed.

(** *** What the resolver writes *)

Lemma cellwise_refl h : cellwise Components h h.
Proof. intros var. by left. Qed.

Lemma cellwise_trans h1 h2 h3 :
  cellwise Components h1 h2 -> cellwise Components h2 h3 ->
  cellwise Components h1 h3.
Proof.
  intros H12 H23 var. destruct (H23 var) as [Heq|Hl]; [|by right].
  destruct (H12 var) as [Heq'|[o [Ho Hl]]].
  - left. congruence.
  - right. exists o. split; [done|congruence].
Qed.

Lemma cellwise_set var o h :
  Item Components (Instance_ParentID var) = Some o ->
  cellwise Components h (set_Parent var o h).
Proof.
  intros Ho var'. simpl. destruct (decide (var = var')) as [<-|Hne].
  - right. exists o. split; [done|]. apply lookup_insert_eq.
  - left. by apply lookup_insert_ne.
Qed.

Lemma cellwise_enter comp h : cellwise Components h (enter_FixRefs comp h).
Proof. intros var. by left. Qed.

Lemma FixRefs_cellwise fuel comp h h' :
  FixRefs fuel Components comp h = Some h' -> cellwise Components h h'.
Proof.
  apply (FixRefs_rel (cellwise Components) cellwise_refl cellwise_trans
           cellwise_set cellwise_enter).
Qed.

Lemma resolve_loop_cellwise descend l h h' :
  (forall o g g', descend o g = Some g' -> cellwise Components g g') ->
  for_each (resolve Components descend) l h = Some h' ->
  cellwise Components h h'.
Proof.
  apply (resolve_loop_rel (cellwise Components) cellwise_refl cellwise_trans
           cellwise_set).
Qed.

Lemma cellwise_linked h h' var :
  cellwise Components h h' ->
  linked Components (Parent h) var -> linked Components (Parent h') var.
Proof.
  intros H [o [Ho Hl]]. destruct (H var) as [Heq|?]; [|done].
  exists o. split; [done|congruence].
Qed.

Lemma cellwise_unresolvable h h' var :
  cellwise Components h h' -> Item Components (Instance_ParentID var) = None ->
  Parent h' !! var = Parent h !! var.
Proof. intros H Hnone. destruct (H var) as [?|[o [Ho _]]]; congruence. Qed.

(** Every instance the loop runs over, whose [ParentID] is a key, ends
    linked. *)
Lemma resolve_loop_links descend l h h' :
  (forall o g g', descend o g = Some g' -> cellwise Components g g') ->
  for_each (resolve Components descend) l h = Some h' ->
  forall var o, var ∈ l -> Item Components (Instance_ParentID var) = Some o ->
    Parent h' !! var = Some o.
Proof.
  intros Hdescend. revert h.
  induction l as [|x l IH]; intros h Hloop var o Hin Ho.
  - by apply elem_of_nil in Hin.
  - simpl in Hloop.
    destruct (resolve Components descend x h) as [h1|] eqn:Hx; [|done].
    apply elem_of_cons in Hin as [->|Hin]; [|by eapply IH].
    assert (linked Components (Parent h') x) as [o' [Ho' Hl]]; [|congruence].
    apply (cellwise_linked h1); [by eapply resolve_loop_cellwise|].
    unfold resolve in Hx. rewrite Ho in Hx.
    apply (cellwise_linked (set_Parent x o h)); [by eapply Hdescend|].
    exists o. split; [done|]. apply lookup_insert_eq.
Qed.

Lemma FixRefs_links fuel comp h h' :
  FixRefs fuel Components comp h = Some h' ->
  forall var o, var ∈ Component_Instances comp ->
    Item Components (Instance_ParentID var) = Some o ->
    Parent h' !! var = Some o.
Proof.
  destruct fuel as [|fuel]; [done|]. simpl. apply resolve_loop_links.
  intros o g g'. apply FixRefs_cellwise.
Qed.

(** *** Running a resolving step again *)

Lemma for_each_replayable {A} (body : A -> Heap -> option Heap) l :
  (forall x, x ∈ l -> replayable Components (body x)) ->
  replayable Components (for_each body l).
Proof.
  induction l as [|x l IH]; intros Hbody h h' Hloop; simpl in Hloop.
  - injection Hloop as <-. split; [apply cellwise_refl|].
    intros g _. by exists g.
  - destruct (body x h) as [h1|] eqn:Hx; [|done].
    destruct (Hbody x (list_elem_of_here _ _) h h1 Hx) as [Hc1 Hr1].
    destruct (IH (fun y Hy => Hbody y (list_elem_of_further _ _ _ Hy))
                h1 h' Hloop) as [Hc2 Hr2].
    split; [by eapply cellwise_trans|].
    intros g Hg. destruct (Hr1 g) as [g1 [Hg1 HP1]].
    { intros var Hl. apply Hg. by eapply cellwise_linked. }
    destruct (Hr2 g1) as [g2 [Hg2 HP2]].
    { intros var Hl. rewrite HP1. by apply Hg. }
    exists g2. simpl. rewrite Hg1. split; [done|congruence].
Qed.

Lemma resolve_replayable descend var :
  (forall o, replayable Components (descend o)) ->
  replayable Components (resolve Components descend var).
Proof.
  intros Hd h h'. unfold resolve.
  destruct (Item Components (Instance_ParentID var)) as [o|] eqn:Ho.
  - intros Hdo. destruct (Hd o _ _ Hdo) as [Hc Hr]. split.
    + eapply cellwise_trans; [by apply cellwise_set|done].
    + intros g Hg.
      assert (Parent (set_Parent var o g) = Parent g) as HP.
      { simpl. apply insert_id.
        destruct (Hg var) as [o' [Ho' Hl]]; [|congruence].
        apply (cellwise_linked (set_Parent var o h)); [done|].
        exists o. split; [done|]. apply lookup_insert_eq. }
      destruct (Hr (set_Parent var o g)) as [g' [Hg' HP']].
      { intros var' Hl. rewrite HP. by apply Hg. }
      exists g'. split; [done|congruence].
  - intros [= ->]. split; [apply cellwise_refl|]. intros g _. by exists g.
Qed.

Lemma FixRefs_replayable fuel comp :
  replayable Components (FixRefs fuel Components comp).
Proof.
  revert comp. induction fuel as [|fuel IH]; intros comp h h'; [done|].
  simpl. intros Hloop.
  destruct (for_each_replayable
              (resolve Components (FixRefs fuel Components))
              (Component_Instances comp)
              (fun var _ => resolve_replayable _ var IH) _ _ Hloop) as [Hc Hr].
  split.
  - eapply cellwise_trans; [apply (cellwise_enter comp)|done].
  - intros g Hg. destruct (Hr (enter_FixRefs comp g) Hg) as [g' [Hg' HP]].
    by exists g'.
Qed.

Lemma FixRefs_Group_replayable fuel comp :
  replayable Components (FixRefs_Group fuel Components comp).
Proof.
  apply for_each_replayable. intros var _. apply resolve_replayable.
  intros o. apply FixRefs_replayable.
Qed.

Lemma FixRefs_Group_cellwise fuel comp h h' :
  FixRefs_Group fuel Components comp h = Some h' -> cellwise Components h h'.
Proof. intros H. by apply FixRefs_Group_replayable in H as [? _]. Qed.

End Resolver.

(** ** The resolution pass of [LoadModel] *)

Lemma resolve_model_split fuel Components Instances Groups inherit h :
  resolve_model fuel Components Instances Groups inherit h =
  (fun h' => (h', Propagator inherit Groups))
    <$> Resolver fuel Components Instances Groups h.
Proof.
  unfold resolve_model, Resolver.
  destruct (for_each _ Instances h) as [h1|]; [|done].
  destruct (for_each _ Components h1) as [h2|]; [|done].
  enough (forall acc g,
    for_each
      (fun var st =>
         match FixRefs_Group fuel Components var st.1 with
         | None => None
         | Some h' =>
             Some (h', st.2 ++ [if inherit then FixMaterialRefs var else var])
         end) Groups (g, acc) =
    (fun h' => (h', acc ++ Propagator inherit Groups))
      <$> for_each (FixRefs_Group fuel Components) Groups g) as H
    by apply (H []).
  unfold Propagator.
  induction Groups as [|var Groups IH]; intros acc g; csimpl.
  - by rewrite app_nil_r.
  - destruct (FixRefs_Group fuel Components var g) as [h'|]; [|done].
    rewrite IH. by rewrite <- app_assoc.
Qed.

Section Resolver_pass.
Variable Components : Dictionary Component.

Lemma replayable_seq (f1 f2 : Heap -> option Heap) :
  replayable Components f1 -> replayable Components f2 ->
  replayable Components
    (fun h => match f1 h with Some h1 => f2 h1 | None => None end).
Proof.
  intros H1 H2 h h'. destruct (f1 h) as [h1|] eqn:Hf1; [|done]. intros Hf2.
  destruct (H1 _ _ Hf1) as [Hc1 Hr1]. destruct (H2 _ _ Hf2) as [Hc2 Hr2].
  split; [by eapply cellwise_trans|].
  intros g Hg. destruct (Hr1 g) as [g1 [Hg1 HP1]].
  { intros var Hl. apply Hg. by eapply cellwise_linked. }
  destruct (Hr2 g1) as [g2 [Hg2 HP2]].
  { intros var Hl. rewrite HP1. by apply Hg. }
  exists g2. rewrite Hg1. split; [done|congruence].
Qed.

Lemma no_descent_replayable (o : Component) :
  replayable Components (fun h => Some h).
Proof.
  intros h h' [= ->]. split; [apply cellwise_refl|]. intros g _. by exists g.
Qed.

Lemma Resolver_replayable fuel Instances Groups :
  replayable Components (Resolver fuel Components Instances Groups).
Proof.
  unfold Resolver.
  apply (replayable_seq
           (for_each (resolve Components (fun _ h => Some h)) Instances)
           (fun h1 =>
              match for_each (fun cmp h => FixRefs fuel Components cmp.2 h)
                      Components h1 with
              | Some h2 => for_each (FixRefs_Group fuel Components) Groups h2
              | None => None
              end)).
  - apply for_each_replayable. intros var _. apply resolve_replayable.
    apply no_descent_replayable.
  - apply (replayable_seq
             (for_each (fun cmp h => FixRefs fuel Components cmp.2 h)
                Components)
             (for_each (FixRefs_Group fuel Components) Groups)).
    + apply for_each_replayable. intros cmp _. apply FixRefs_replayable.
    + apply for_each_replayable. intros var _. apply FixRefs_Group_replayable.
Qed.

Lemma Resolver_cellwise fuel Instances Groups h h' :
  Resolver fuel Components Instances Groups h = Some h' ->
  cellwise Components h h'.
Proof. intros H. by apply Resolver_replayable in H as [? _]. Qed.

(** The pass links every instance it runs over: the model's own, those of
    every definition of the mapping, those of every top-level group. *)
Lemma Resolver_links fuel Instances Groups h h' var o :
  Resolver fuel Components Instances Groups h = Some h' ->
  Item Components (Instance_ParentID var) = Some o ->
  var ∈ Instances
  \/ (exists c, c ∈ Components.*2 /\ var ∈ Component_Instances c)
  \/ (exists g, g ∈ Groups /\ var ∈ Group_Instances g) ->
  Parent h' !! var = Some o.
Proof.
  unfold Resolver. intros Hpass Ho Hwhere.
  destruct (for_each _ Instances h) as [h1|] eqn:H1; [|done].
  destruct (for_each _ Components h1) as [h2|] eqn:H2; [|done].
  assert (cellwise Components h1 h2) as Hc12.
  { revert H2. apply for_each_rel;
      [apply cellwise_refl|apply cellwise_trans|].
    intros cmp g g' _. apply FixRefs_cellwise. }
  assert (cellwise Components h2 h') as Hc23.
  { revert Hpass. apply for_each_rel;
      [apply cellwise_refl|apply cellwise_trans|].
    intros grp g g' _. apply FixRefs_Group_cellwise. }
  assert (linked Components (Parent h') var) as [o' [Ho' Hl]]; [|congruence].
  destruct Hwhere as [Hin|[[c [Hc Hin]]|[grp [Hgrp Hin]]]].
  - apply (cellwise_linked _ h2); [done|].
    apply (cellwise_linked _ h1); [done|].
    exists o. split; [done|].
    eapply resolve_loop_links; [|exact H1|done|done].
    intros ? g g' [= ->]. apply cellwise_refl.
  - apply (cellwise_linked _ h2); [done|].
    apply list_elem_of_fmap_1 in Hc as [cmp [-> Hcmp]].
    revert H2.
    apply (for_each_establish (fun g => linked Components (Parent g) var)
             _ _ cmp); [| |done].
    + intros ? g g' Hg. apply cellwise_linked. by eapply FixRefs_cellwise.
    + intros g g' Hg. exists o. split; [done|]. by eapply FixRefs_links.
  - revert Hpass.
    apply (for_each_establish (fun g => linked Components (Parent g) var)
             _ _ grp); [| |done].
    + intros ? g g' Hg. apply cellwise_linked. by eapply FixRefs_Group_cellwise.
    + intros g g' Hg. exists o. split; [done|].
      eapply resolve_loop_links; [|exact Hg|done|done].
      intros ? a a'. apply FixRefs_cellwise.
Qed.

Lemma Resolver_terminates rank fuel Instances Groups h :
  well_ranked Components rank = true ->
  enough_fuel Components rank <= fuel ->
  is_Some (Resolver fuel Components Instances Groups h).
Proof.
  intros Hrank Hfuel. unfold Resolver.
  destruct (for_each_total (resolve Components (fun _ h => Some h)) Instances)
    with (st := h) as [h1 ->].
  { intros var g _. unfold resolve. destruct (Item _ _); by eexists. }
  destruct (for_each_total (fun cmp h => FixRefs fuel Components cmp.2 h)
              Components) with (st := h1) as [h2 ->].
  { intros cmp g Hcmp. apply (FixRefs_terminates _ rank); [done| |].
    - by apply list_elem_of_fmap_2.
    - pose proof (enough_fuel_bound Components rank cmp.2
                    (list_elem_of_fmap_2 snd _ _ Hcmp)). lia. }
  apply for_each_total. intros grp g _.
  by apply (FixRefs_Group_terminates _ rank).
Qed.

End Resolver_pass.

(** ** The two dictionaries built by [LoadModel] *)

Lemma add_Material_loop materials d :
  exists d', try_each add_Material materials d = inr d' /\
    (NoDup d.*1 -> NoDup d'.*1) /\
    forall name, Item d' name =
      match Item d name with
      | Some m => Some m
      | None => first_named materials name
      end.
Proof.
  revert d. induction materials as [|mat materials IH]; intros d.
  - exists d. split; [done|]. split; [done|]. intros name. simpl.
    by destruct (Item d name).
  - cbn [try_each]. unfold add_Material at 1.
    destruct (ContainsKey d (Material_Name mat)) eqn:Hkey; simpl.
    + destruct (IH d) as [d' [-> [Hnodup Hitem]]]. exists d'.
      split; [done|]. split; [done|]. intros name. rewrite Hitem.
      destruct (Item d name) eqn:Hname; [done|]. unfold first_named. simpl.
      destruct (String.eqb_spec (Material_Name mat) name) as [Heq|]; [|done].
      apply ContainsKey_Item in Hkey as [m Hm]. congruence.
    + apply ContainsKey_false in Hkey. rewrite (Add_fresh _ _ _ Hkey).
      destruct (IH (d ++ [(Material_Name mat, mat)]))
        as [d' [-> [Hnodup Hitem]]].
      exists d'. split; [done|]. split.
      * intros Hd. apply Hnodup. rewrite fmap_app. apply NoDup_app.
        split; [done|]. split; [|apply NoDup_singleton].
        intros k Hk [->|[]%elem_of_nil]%elem_of_cons.
        by apply Item_None_keys in Hkey.
      * intros name. rewrite Hitem, Item_app, Item_cons, Item_nil.
        unfold first_named. simpl.
        destruct (Item d name); [done|].
        by destruct (String.eqb (Material_Name mat) name).
Qed.

Lemma add_Material_never_throws materials :
  try_each add_Material materials [] = inr (Materials_of materials).
Proof.
  unfold Materials_of.
  by destruct (add_Material_loop materials []) as [d' [-> _]].
Qed.

Lemma Materials_of_NoDup materials : NoDup (Materials_of materials).*1.
Proof.
  destruct (add_Material_loop materials []) as [d' [Hd [Hnodup _]]].
  rewrite add_Material_never_throws in Hd. injection Hd as ->.
  apply Hnodup, NoDup_nil_2.
Qed.

Lemma Materials_of_Item materials name :
  Item (Materials_of materials) name = first_named materials name.
Proof.
  destruct (add_Material_loop materials []) as [d' [Hd [_ Hitem]]].
  rewrite add_Material_never_throws in Hd. injection Hd as ->.
  by rewrite Hitem.
Qed.

Lemma add_Component_loop components d :
  NoDup (d.*1 ++ (Component_Guid <$> components)) ->
  try_each add_Component components d = inr (d ++ entries components).
Proof.
  revert d. induction components as [|c components IH]; intros d; csimpl.
  - intros _. by rewrite app_nil_r.
  - intros Hnodup. unfold add_Component at 1. rewrite Add_fresh.
    + rewrite IH; [by rewrite <- app_assoc|].
      rewrite fmap_app, <- app_assoc. done.
    + apply Item_None_keys. apply NoDup_app in Hnodup as (_ & Hdisj & _).
      intros Hin. apply (Hdisj _ Hin). apply list_elem_of_here.
Qed.

Lemma entries_keys components :
  (entries components).*1 = Component_Guid <$> components.
Proof. unfold entries. rewrite <- list_fmap_compose. done. Qed.

Lemma entries_values components : (entries components).*2 = components.
Proof.
  unfold entries. rewrite <- list_fmap_compose. apply list_fmap_id.
Qed.

(** ** The objects a load creates *)

Lemma elem_of_concat {A} (x : A) (ls : list (list A)) :
  x ∈ concat ls <-> exists l, x ∈ l /\ l ∈ ls.
Proof.
  induction ls as [|l ls IH]; simpl.
  - split; [by intros ?%elem_of_nil|]. by intros (l & _ & ?%elem_of_nil).
  - rewrite elem_of_app, IH. split.
    + intros [Hx|(l' & Hx & Hl')].
      * exists l. split; [done|apply list_elem_of_here].
      * exists l'. split; [done|by apply list_elem_of_further].
    + intros (l' & Hx & [->|Hl']%elem_of_cons); [by left|]. right. eauto.
Qed.

(** A new object has no [Parent]; the other cells are kept. *)
Lemma allocate_lookup vars h var :
  Parent (allocate vars h) !! var =
  if decide (var ∈ vars) then None else Parent h !! var.
Proof.
  unfold allocate. cbn [Parent].
  induction vars as [|x vars IH]; cbn [foldr].
  - rewrite decide_False; [done|apply not_elem_of_nil].
  - destruct (decide (x = var)) as [->|Hne].
    + rewrite lookup_delete_eq, decide_True; [done|apply list_elem_of_here].
    + rewrite lookup_delete_ne by done. rewrite IH.
      destruct (decide (var ∈ vars)) as [Hin|Hout].
      * rewrite decide_True; [done|by apply list_elem_of_further].
      * rewrite decide_False; [done|].
        rewrite not_elem_of_cons. by split; [intros ->|].
Qed.

Lemma allocate_app vars1 vars2 h :
  allocate vars1 (allocate vars2 h) = allocate (vars1 ++ vars2) h.
Proof. unfold allocate. cbn [Parent Expanded]. by rewrite foldr_app. Qed.

Lemma extraction_allocate file heap :
  extraction file heap = allocate (objects_of file) (mkHeap (Parent heap) []).
Proof.
  unfold extraction, objects_of. by rewrite !allocate_app, <- ?app_assoc.
Qed.

Lemma extraction_lookup file heap var :
  Parent (extraction file heap) !! var =
  if decide (var ∈ objects_of file) then None else Parent heap !! var.
Proof. rewrite extraction_allocate. apply (allocate_lookup _ (mkHeap _ _)). Qed.

Lemma extraction_Expanded file heap : Expanded (extraction file heap) = [].
Proof. reflexivity. Qed.

Lemma Group_objects_own grp var :
  var ∈ Group_Instances grp -> var ∈ Group_objects grp.
Proof. destruct grp. simpl. intros H. apply elem_of_app. by left. Qed.

(** ** [LoadModel] on a file that loads *)

Lemma LoadModel_loadable rank fuel api this heap filename includeMeshes
    inherit :
  let file := model_at api filename in
  loadable rank file ->
  enough_fuel (entries (file_components file)) rank <= fuel ->
  exists h,
    Resolver fuel (entries (file_components file)) (file_instances file)
      (file_groups file) (extraction file heap) = Some h /\
    LoadModel fuel api this heap filename includeMeshes inherit =
    Some (mkExit (Returned true) (loaded file inherit)
            [SUInitialize; SUModelCreateFromFileWithStatus filename;
             SUModelRelease; SUTerminate], h).
Proof.
  intros file [Hnodup Hrank] Hfuel.
  destruct (Resolver_terminates _ rank fuel (file_instances file)
              (file_groups file) (extraction file heap) Hrank Hfuel)
    as [h Hh].
  exists h. split; [done|]. unfold LoadModel. fold file.
  rewrite add_Material_never_throws.
  rewrite (add_Component_loop _ []) by done. cbn [app].
  rewrite entries_values. fold (extraction file heap).
  rewrite resolve_model_split, Hh. done.
Qed.

(** When the resolution pass does not return, neither does [LoadModel]. *)
Lemma LoadModel_diverges fuel api this heap filename includeMeshes inherit :
  let file := model_at api filename in
  NoDup (Component_Guid <$> file_components file) ->
  Resolver fuel (entries (file_components file)) (file_instances file)
    (file_groups file) (extraction file heap) = None ->
  LoadModel fuel api this heap filename includeMeshes inherit = None.
Proof.
  intros file Hnodup Hpass. unfold LoadModel. fold file.
  rewrite add_Material_never_throws.
  rewrite (add_Component_loop _ []) by done. cbn [app].
  rewrite entries_values. fold (extraction file heap).
  by rewrite resolve_model_split, Hpass.
Qed.

(** However [LoadModel] ends, the flag is the comparison of line 155. *)
Lemma LoadModel_flag fuel api this heap filename includeMeshes inherit e h :
  LoadModel fuel api this heap filename includeMeshes inherit = Some (e, h) ->
  MoreRecentFileVersion (object e) =
  is_Success_MoreRecent (file_status (model_at api filename)).
Proof.
  unfold LoadModel.
  destruct (try_each add_Material _ _) as [[? ?]|materials].
  { by intros [= <- _]. }
  destruct (try_each add_Component _ _) as [[? ?]|components].
  { by intros [= <- _]. }
  destruct (resolve_model _ _ _ _ _ _) as [[? ?]|]; [|done].
  by intros [= <- _].
Qed.

(** A run of [Components->Add] that does not throw appended one entry per
    definition. *)
Lemma add_Component_loop_entries components : forall d d',
  try_each add_Component components d = inr d' -> d' = d ++ entries components.
Proof.
  induction components as [|c l IH]; intros d d'; csimpl.
  - intros [= <-]. by rewrite app_nil_r.
  - unfold add_Component at 1. unfold Add.
    destruct (ContainsKey d (Component_Guid c)); [done|].
    intros H%IH. by rewrite <- app_assoc in H.
Qed.

(** A load that returns went through the resolution pass. *)
Lemma LoadModel_Returned fuel api this heap filename includeMeshes inherit
    e h b :
  LoadModel fuel api this heap filename includeMeshes inherit = Some (e, h) ->
  completion e = Returned b ->
  let file := model_at api filename in
  b = true /\
  object e = loaded file inherit /\
  try_each add_Component (file_components file) [] =
    inr (entries (file_components file)) /\
  Resolver fuel (entries (file_components file)) (file_instances file)
    (file_groups file) (extraction file heap) = Some h.
Proof.
  unfold LoadModel. rewrite add_Material_never_throws.
  destruct (try_each add_Component _ _) as [[? ?]|components] eqn:Hadd.
  { by intros [= <- _]. }
  apply add_Component_loop_entries in Hadd as ->. cbn [app].
  rewrite entries_values, resolve_model_split.
  fold (extraction (model_at api filename) heap).
  destruct (Resolver _ _ _ _ _) as [h'|]; [|done].
  simpl. intros [= <- <-]. simpl. intros [= <-]. done.
Qed.

(** ** The material propagator *)

Lemma pick_pick inherited own :
  pick inherited (pick inherited own) = pick inherited own.
Proof.
  unfold pick. destruct (unset own) eqn:Hown; [|by rewrite Hown].
  by destruct (unset inherited).
Qed.

Lemma pick_explicit inherited own :
  unset own = false -> pick inherited own = own.
Proof. unfold pick. by intros ->. Qed.

Lemma pick_unset inherited own :
  unset own = true -> pick inherited own = inherited.
Proof. unfold pick. by intros ->. Qed.

Lemma FixSurface_pick m s :
  FixSurface m s =
  mkSurface (pick m (Surface_FrontMaterial s)) (pick m (Surface_BackMaterial s))
            (Surface_Geometry s).
Proof. reflexivity. Qed.

Lemma FixSurface_twice m s : FixSurface m (FixSurface m s) = FixSurface m s.
Proof. rewrite !FixSurface_pick. simpl. by rewrite !pick_pick. Qed.

Lemma FixMaterialRefs_with_set m g :
  FixMaterialRefs_with m g = FixMaterialRefs (set_Material m g).
Proof. by destruct g. Qed.

Lemma FixMaterialRefs_with_eq m grp :
  FixMaterialRefs_with m grp =
  mkGroup m
    ((fun g => FixMaterialRefs_with (pick m (Group_Material g)) g)
       <$> Group_Groups grp)
    (FixSurface m <$> Group_Surfaces grp)
    (Group_Instances grp).
Proof. by destruct grp. Qed.

(** The equation of [FixMaterialRefs] in the shape of the source: the
    child's slot is assigned when unset, then the child is processed. *)
Lemma FixMaterialRefs_unfold grp :
  let parentMaterial := Group_Material grp in
  FixMaterialRefs grp =
  mkGroup (Group_Material grp)
    ((fun g =>
        FixMaterialRefs
          (if String.eqb (Material_Name (Group_Material g)) ""
           then set_Material parentMaterial g else g))
       <$> Group_Groups grp)
    ((fun s =>
        let s1 :=
          if String.eqb (Material_Name (Surface_FrontMaterial s)) ""
          then mkSurface parentMaterial (Surface_BackMaterial s)
                 (Surface_Geometry s)
          else s in
        if String.eqb (Material_Name (Surface_BackMaterial s1)) ""
        then mkSurface (Surface_FrontMaterial s1) parentMaterial
               (Surface_Geometry s1)
        else s1)
       <$> Group_Surfaces grp)
    (Group_Instances grp).
Proof.
  intros parentMaterial. unfold FixMaterialRefs.
  rewrite FixMaterialRefs_with_eq. fold parentMaterial. f_equal.
  - apply list_fmap_ext. intros _ g _. unfold pick, unset.
    destruct (String.eqb (Material_Name (Group_Material g)) "") eqn:Hg.
    + by rewrite FixMaterialRefs_with_set.
    + by destruct g.
  - apply list_fmap_ext. intros _ [front back geometry] _.
    unfold FixSurface, unset. simpl.
    destruct (String.eqb (Material_Name front) ""); simpl;
      by destruct (String.eqb (Material_Name back) "").
Qed.

Lemma FixMaterialRefs_with_twice grp : forall m,
  FixMaterialRefs_with m (FixMaterialRefs_with m grp) =
  FixMaterialRefs_with m grp.
Proof.
  induction grp as [own groups surfaces instances IH] using Group_nested_ind.
  intros m. rewrite (FixMaterialRefs_with_eq m (FixMaterialRefs_with m _)).
  rewrite (FixMaterialRefs_with_eq m (mkGroup _ _ _ _)).
  cbn [Group_Material Group_Groups Group_Surfaces Group_Instances]. f_equal.
  - rewrite <- list_fmap_compose. apply Forall_fmap_ext_1.
    eapply Forall_impl; [exact IH|]. intros g Hg. cbn [compose].
    replace (Group_Material
               (FixMaterialRefs_with (pick m (Group_Material g)) g))
      with (pick m (Group_Material g)) by (by destruct g).
    rewrite pick_pick. apply Hg.
  - rewrite <- list_fmap_compose. apply list_fmap_ext. intros _ s _.
    apply FixSurface_twice.
Qed.

Lemma FixMaterialRefs_Material grp :
  Group_Material (FixMaterialRefs grp) = Group_Material grp.
Proof. by destruct grp. Qed.

Lemma FixMaterialRefs_Instances grp :
  Group_Instances (FixMaterialRefs grp) = Group_Instances grp.
Proof. by destruct grp. Qed.

Lemma FixMaterialRefs_twice grp :
  FixMaterialRefs (FixMaterialRefs grp) = FixMaterialRefs grp.
Proof.
  unfold FixMaterialRefs at 1. rewrite FixMaterialRefs_Material.
  unfold FixMaterialRefs. apply FixMaterialRefs_with_twice.
Qed.

Lemma Propagator_twice inherit Groups :
  Propagator inherit (Propagator inherit Groups) = Propagator inherit Groups.
Proof.
  unfold Propagator. rewrite <- list_fmap_compose. apply list_fmap_ext.
  intros _ g _. simpl. destruct inherit; [apply FixMaterialRefs_twice|done].
Qed.

Lemma FixMaterialRefs_with_at path : forall grp m child,
  group_at path grp = Some child ->
  group_at path (FixMaterialRefs_with m grp) =
  Some (FixMaterialRefs_with (foldl pick m (materials_to path grp)) child).
Proof.
  induction path as [|i path IH]; intros grp m child; simpl.
  - by intros [= ->].
  - rewrite FixMaterialRefs_with_eq. simpl. rewrite list_lookup_fmap.
    destruct (Group_Groups grp !! i) as [g|]; [|done]. simpl.
    intros Hchild. by rewrite (IH _ _ _ Hchild).
Qed.

(** ** Counting expansions *)

Section Expansions.
Variable Components : Dictionary Component.

Lemma times_app o log1 log2 :
  times o (log1 ++ log2) = times o log1 + times o log2.
Proof. unfold times. by rewrite filter_app, length_app. Qed.

Lemma times_cons o c log :
  times o (c :: log) = (if decide (c = o) then 1 else 0) + times o log.
Proof. unfold times. rewrite filter_cons. by destruct (decide (c = o)). Qed.

Lemma calls_into_cons var l o :
  calls_into Components (var :: l) o =
  (if decide (Item Components (Instance_ParentID var) = Some o) then 1 else 0)
  + calls_into Components l o.
Proof. unfold calls_into. rewrite filter_cons. by destruct (decide _). Qed.

Lemma spawned_app log1 log2 o :
  spawned Components (log1 ++ log2) o =
  spawned Components log1 o + spawned Components log2 o.
Proof. unfold spawned. apply sum_list_with_app. Qed.

Lemma flows_refl h : flows Components (fun _ => 0) h h.
Proof. exists []. split; [by rewrite app_nil_r|done]. Qed.

Lemma flows_seq seed1 seed2 h1 h2 h3 :
  flows Components seed1 h1 h2 -> flows Components seed2 h2 h3 ->
  flows Components (fun o => seed1 o + seed2 o) h1 h3.
Proof.
  intros [log1 [E1 F1]] [log2 [E2 F2]]. exists (log1 ++ log2). split.
  - by rewrite E2, E1, app_assoc.
  - intros o. rewrite times_app, spawned_app, F1, F2. lia.
Qed.

Lemma flows_ext seed seed' h h' :
  (forall o, seed o = seed' o) ->
  flows Components seed h h' -> flows Components seed' h h'.
Proof.
  intros Hext [log [E F]]. exists log. split; [done|].
  intros o. by rewrite F, Hext.
Qed.

Lemma for_each_flows {A} (seed : A -> Component -> nat)
    (body : A -> Heap -> option Heap) l :
  (forall a g g', body a g = Some g' -> flows Components (seed a) g g') ->
  forall h h', for_each body l h = Some h' ->
    flows Components (fun o => sum_list_with (fun a => seed a o) l) h h'.
Proof.
  intros Hbody. induction l as [|a l IH]; intros h h'; simpl.
  - intros [= ->]. apply flows_refl.
  - destruct (body a h) as [h1|] eqn:Ha; [|done]. intros Hl.
    eapply flows_seq; [by eapply Hbody|by apply IH].
Qed.

Lemma calls_into_single var o :
  calls_into Components [var] o =
  if decide (Item Components (Instance_ParentID var) = Some o) then 1 else 0.
Proof.
  rewrite calls_into_cons. unfold calls_into. rewrite filter_nil.
  cbn [length]. lia.
Qed.

Lemma resolve_flows descend var h h' :
  (forall o g g', descend o g = Some g' ->
     flows Components (fun x => if decide (o = x) then 1 else 0) g g') ->
  resolve Components descend var h = Some h' ->
  flows Components (fun x => calls_into Components [var] x) h h'.
Proof.
  intros Hdescend. unfold resolve.
  destruct (Item Components (Instance_ParentID var)) as [o|] eqn:Ho.
  - intros Hd%Hdescend. eapply flows_ext; [|exact Hd].
    intros x. rewrite calls_into_single, Ho.
    destruct (decide (o = x)) as [->|Hne].
    + by rewrite decide_True.
    + rewrite decide_False; [done|congruence].
  - intros [= ->]. eapply flows_ext; [|apply flows_refl].
    intros x. rewrite calls_into_single, Ho. by rewrite decide_False.
Qed.

Lemma calls_into_sum l o :
  sum_list_with (fun var => calls_into Components [var] o) l =
  calls_into Components l o.
Proof.
  induction l as [|var l IH]; [done|]. cbn [sum_list_with].
  rewrite IH, (calls_into_cons var l), calls_into_single. done.
Qed.

Lemma resolve_loop_flows descend l h h' :
  (forall o g g', descend o g = Some g' ->
     flows Components (fun x => if decide (o = x) then 1 else 0) g g') ->
  for_each (resolve Components descend) l h = Some h' ->
  flows Components (calls_into Components l) h h'.
Proof.
  intros Hdescend Hloop. eapply flows_ext; [apply calls_into_sum|].
  revert Hloop. apply for_each_flows. intros var g g'.
  by apply resolve_flows.
Qed.

(** One call of [FixRefs] on [comp]: one expansion of [comp] from
    outside, and one expansion for every instance met that names a
    definition. *)
Lemma FixRefs_flows fuel comp h h' :
  FixRefs fuel Components comp h = Some h' ->
  flows Components (fun x => if decide (comp = x) then 1 else 0) h h'.
Proof.
  revert comp h h'. induction fuel as [|fuel IH]; intros comp h h'; [done|].
  simpl. intros Hloop.
  apply (resolve_loop_flows _ _ _ _ IH) in Hloop as [log [E F]].
  exists (comp :: log). split.
  - rewrite E. simpl. by rewrite <- app_assoc.
  - intros o. rewrite times_cons, F. unfold spawned. simpl. lia.
Qed.

Lemma FixRefs_Group_flows fuel comp h h' :
  FixRefs_Group fuel Components comp h = Some h' ->
  flows Components (calls_into Components (Group_Instances comp)) h h'.
Proof.
  unfold FixRefs_Group. apply resolve_loop_flows. intros o g g'.
  apply FixRefs_flows.
Qed.

(** The whole pass: a definition is expanded once for each of its entries
    in the mapping, once for every instance naming it in a top-level
    group, and once for every instance naming it met in an expansion. *)
Lemma Resolver_flows fuel Instances Groups h h' :
  Resolver fuel Components Instances Groups h = Some h' ->
  flows Components
    (fun o =>
       times o Components.*2
       + sum_list_with (fun g => calls_into Components (Group_Instances g) o)
           Groups) h h'.
Proof.
  unfold Resolver.
  destruct (for_each _ Instances h) as [h1|] eqn:H1; [|done].
  destruct (for_each _ Components h1) as [h2|] eqn:H2; [|done]. intros H3.
  assert (Expanded h1 = Expanded h) as E1.
  { symmetry. revert H1.
    apply (for_each_rel (fun a b => Expanded a = Expanded b));
      [done|congruence|].
    intros var g g' _. unfold resolve. destruct (Item _ _); by intros [= <-]. }
  apply (for_each_flows (fun cmp x => if decide (cmp.2 = x) then 1 else 0))
    in H2.
  2:{ intros cmp g g'. apply FixRefs_flows. }
  apply (for_each_flows (fun g => calls_into Components (Group_Instances g)))
    in H3.
  2:{ intros grp g g'. apply FixRefs_Group_flows. }
  pose proof (flows_seq _ _ _ _ _ H2 H3) as [log [E F]].
  exists log. split; [congruence|]. intros o. rewrite F. f_equal. f_equal.
  clear. induction Components as [|cmp d IH]; [done|].
  csimpl. rewrite times_cons, IH. done.
Qed.

End Expansions.

(** ** The sample files load *)

Lemma house_loadable : loadable house_rank house_file.
Proof.
  split; [|reflexivity].
  apply (bool_decide_unpack _). vm_compute. exact I.
Defined.

Lemma diamond_loadable :
  loadable diamond_rank (diamond_file [diamond_A; diamond_B; diamond_C]).
Proof.
  split; [|reflexivity].
  apply (bool_decide_unpack _). vm_compute. exact I.
Defined.

(** * The claims *)

(** ** C1: termination of the resolution pass *)

(** On the cyclic file the recursion [A], [B], [A], ... uses up every
    fuel. *)
Lemma cyclic_FixRefs_diverges fuel : forall h,
  FixRefs fuel (entries [cyclic_A; cyclic_B]) cyclic_A h = None /\
  FixRefs fuel (entries [cyclic_A; cyclic_B]) cyclic_B h = None.
Proof.
  assert (Item (entries [cyclic_A; cyclic_B]) "A" = Some cyclic_A) as HA
    by reflexivity.
  assert (Item (entries [cyclic_A; cyclic_B]) "B" = Some cyclic_B) as HB
    by reflexivity.
  induction fuel as [|fuel IH]; intros h; [done|].
  rewrite !FixRefs_S. split.
  - change (Component_Instances cyclic_A) with [mkInstance "B" 1].
    cbn [for_each]. unfold resolve. cbn [Instance_ParentID].
    by rewrite HB, (proj2 (IH _)).
  - change (Component_Instances cyclic_B) with [mkInstance "A" 2].
    cbn [for_each]. unfold resolve. cbn [Instance_ParentID].
    by rewrite HA, (proj1 (IH _)).
Qed.

Lemma cyclic_Resolver_diverges fuel h :
  Resolver fuel (entries [cyclic_A; cyclic_B]) [] [] h = None.
Proof.
  unfold Resolver. cbn [for_each].
  assert (for_each
            (fun cmp g => FixRefs fuel (entries [cyclic_A; cyclic_B]) cmp.2 g)
            (entries [cyclic_A; cyclic_B]) h = None) as ->; [|done].
  apply (for_each_diverges _ ("A", cyclic_A) [("B", cyclic_B)]).
  apply cyclic_FixRefs_diverges.
Qed.

(** C1, counterexample: on the file whose definitions [A] and [B] place an
    instance of each other, no bound on the recursion depth lets [LoadModel]
    return, from whatever heap: the resolution pass does not terminate. *)
Lemma LoadModel_cyclic_never_returns :
  ~ exists fuel heap r,
      LoadModel fuel cyclic_api empty_object heap "cycle.skp" false false
        = Some r.
Proof.
  intros (fuel & heap & r & Hr).
  rewrite (LoadModel_diverges fuel cyclic_api) in Hr; [done| |].
  - apply (bool_decide_unpack _). vm_compute. exact I.
  - apply cyclic_Resolver_diverges.
Qed.

(** C1, amended: when the references between the definitions of the file
    go down in some rank (the definition graph has no cycle) and the
    [Guid]s are distinct, [LoadModel] returns [true] for every large enough
    bound on the recursion depth, and then every instance of the model
    root, of a definition of [Components] or of a top-level group whose
    [ParentID] is a key of [Components] has its [Parent] set to that
    definition.  This holds from every heap, that is after whatever
    earlier operations. *)
Theorem LoadModel_resolves_ranked_graph rank api this heap filename
    includeMeshes inheritGroupMaterials :
  let file := model_at api filename in
  loadable rank file ->
  exists fuel0, forall fuel, fuel0 <= fuel ->
    exists e h,
      LoadModel fuel api this heap filename includeMeshes
        inheritGroupMaterials = Some (e, h) /\
      completion e = Returned true /\
      forall var o,
        Item (entries (file_components file)) (Instance_ParentID var) = Some o ->
        var ∈ file_instances file
        \/ (exists c, c ∈ file_components file /\ var ∈ Component_Instances c)
        \/ (exists g, g ∈ file_groups file /\ var ∈ Group_Instances g) ->
        Parent h !! var = Some o.
Proof.
  intros file Hfile.
  exists (enough_fuel (entries (file_components file)) rank). intros fuel Hfuel.
  destruct (LoadModel_loadable rank fuel api this heap filename
              includeMeshes inheritGroupMaterials Hfile Hfuel)
    as [h [Hpass Hload]].
  eexists _, h. split; [exact Hload|]. split; [done|].
  intros var o Ho Hwhere. eapply Resolver_links; [exact Hpass|exact Ho|].
  by rewrite entries_values.
Qed.

Lemma LoadModel_resolves_ranked_graph_witness :
  exists fuel0, forall fuel, fuel0 <= fuel ->
    exists e h,
      LoadModel fuel house_api empty_object fresh_heap "house.skp" false
        true = Some (e, h) /\
      completion e = Returned true /\
      forall var o,
        Item (entries (file_components house_file)) (Instance_ParentID var)
          = Some o ->
        var ∈ file_instances house_file
        \/ (exists c, c ∈ file_components house_file
                      /\ var ∈ Component_Instances c)
        \/ (exists g, g ∈ file_groups house_file /\ var ∈ Group_Instances g) ->
        Parent h !! var = Some o.
Proof.
  exact (LoadModel_resolves_ranked_graph house_rank house_api empty_object
           fresh_heap "house.skp" false true house_loadable).
Defined.

(** ** C2: how often a shared definition is expanded *)

Lemma sum_list_with_elem {A} (f : A -> nat) l a :
  a ∈ l -> f a <= sum_list_with f l.
Proof.
  induction l as [|x l IH]; [by intros ?%elem_of_nil|].
  intros [->|Hin]%elem_of_cons; simpl; [lia|]. specialize (IH Hin). lia.
Qed.

Lemma sum_list_with_two {A} (f : A -> nat) l a b :
  a <> b -> a ∈ l -> b ∈ l -> f a + f b <= sum_list_with f l.
Proof.
  intros Hne. induction l as [|x l IH]; [by intros ?%elem_of_nil|].
  intros [->|Ha]%elem_of_cons [->|Hb]%elem_of_cons; simpl.
  - done.
  - pose proof (sum_list_with_elem f l b Hb). lia.
  - pose proof (sum_list_with_elem f l a Ha). lia.
  - specialize (IH Ha Hb). lia.
Qed.

Lemma times_elem o log : 0 < times o log <-> o ∈ log.
Proof.
  induction log as [|c log IH].
  { split; [by intros ?%Nat.lt_irrefl|by intros ?%elem_of_nil]. }
  rewrite times_cons, elem_of_cons.
  destruct (decide (c = o)) as [->|Hne].
  - split; [by left|lia].
  - simpl. rewrite IH. split; [by right|]. by intros [->|].
Qed.

(** C2, counterexample: on the file in which [A] and [B] each place one
    instance of [C], one pass of [LoadModel] enters [FixRefs] on [C] three
    times, not once: from [A]'s instance, from [B]'s instance and from the
    loop over [Components]; and so in the opposite order of the table. *)
Lemma diamond_C_expanded_three_times :
  (exists e h,
     LoadModel 2 (diamond_api [diamond_A; diamond_B; diamond_C]) empty_object
       fresh_heap "diamond.skp" false false = Some (e, h) /\
     completion e = Returned true /\
     times diamond_C (Expanded h) = 3) /\
  (exists e h,
     LoadModel 2 (diamond_api [diamond_C; diamond_B; diamond_A]) empty_object
       fresh_heap "diamond.skp" false false = Some (e, h) /\
     completion e = Returned true /\
     times diamond_C (Expanded h) = 3).
Proof. split; (eexists _, _; split; [reflexivity|]; split; reflexivity). Qed.

(** C2, amended: in one pass of [LoadModel] that returns, a definition is
    expanded once for its entry in [Components], once for every instance
    naming it in a top-level group, and once for every instance naming it
    that is met in an expansion of a definition; nothing is skipped for
    having been expanded before.  So when two distinct definitions [A]
    and [B] of the file each own an instance naming a definition [C] of the
    file, [C] is expanded at least three times, in whatever order the
    definitions are listed. *)
Theorem LoadModel_expansion_count fuel api this heap filename includeMeshes
    inheritGroupMaterials e h :
  let file := model_at api filename in
  let Components := entries (file_components file) in
  LoadModel fuel api this heap filename includeMeshes inheritGroupMaterials
    = Some (e, h) ->
  completion e = Returned true ->
  (forall o,
     times o (Expanded h) =
     times o (file_components file)
     + sum_list_with (fun g => calls_into Components (Group_Instances g) o)
         (file_groups file)
     + spawned Components (Expanded h) o) /\
  (forall A B C,
     A ∈ file_components file -> B ∈ file_components file ->
     C ∈ file_components file -> A <> B ->
     0 < calls_into Components (Component_Instances A) C ->
     0 < calls_into Components (Component_Instances B) C ->
     3 <= times C (Expanded h)).
Proof.
  intros file Components Hload Hret.
  destruct (LoadModel_Returned _ _ _ _ _ _ _ _ _ _ Hload Hret)
    as (_ & _ & _ & Hpass).
  apply Resolver_flows in Hpass as [log [E F]].
  rewrite extraction_Expanded in E. simpl in E. subst log.
  rewrite entries_values in F. fold file in F. fold Components in F.
  assert (forall o,
     times o (Expanded h) =
     times o (file_components file)
     + sum_list_with (fun g => calls_into Components (Group_Instances g) o)
         (file_groups file)
     + spawned Components (Expanded h) o) as Hflow.
  { exact F. }
  split; [exact Hflow|].
  intros A B C HA HB HC Hne HAC HBC.
  assert (forall o, o ∈ file_components file -> o ∈ Expanded h) as Hin.
  { intros o Ho%times_elem. apply times_elem. rewrite Hflow. lia. }
  pose proof (sum_list_with_two
                (fun c => calls_into Components (Component_Instances c) C)
                (Expanded h) A B Hne (Hin A HA) (Hin B HB)) as Hsum.
  apply times_elem in HC. rewrite (Hflow C). unfold spawned. simpl in Hsum. lia.
Qed.

Lemma LoadModel_expansion_count_witness :
  exists e h,
    LoadModel 2 (diamond_api [diamond_A; diamond_B; diamond_C]) empty_object
      fresh_heap "diamond.skp" false false = Some (e, h) /\
    3 <= times diamond_C (Expanded h).
Proof.
  eexists _, _. split; [reflexivity|].
  refine (proj2 (LoadModel_expansion_count 2
                   (diamond_api [diamond_A; diamond_B; diamond_C])
                   empty_object fresh_heap "diamond.skp" false false _ _
                   eq_refl eq_refl)
            diamond_A diamond_B diamond_C _ _ _ _ _ _).
  - apply list_elem_of_here.
  - apply list_elem_of_further, list_elem_of_here.
  - do 2 apply list_elem_of_further. apply list_elem_of_here.
  - discriminate.
  - vm_compute. lia.
  - vm_compute. lia.
Defined.

(** ** C3: a load whose status is a failure *)

(** C3, the code at the failing input: when the library reports a failure
    of any kind (and so yields no table), [LoadModel] does not stop at
    the status: it builds the empty collections, releases, terminates and
    returns [true], with every link of the heap as it was.  No exit of
    [LoadModel] returns [false], whatever the status and the tables. *)
Theorem LoadModel_failure_status_returns_true :
  (forall fuel this heap filename kind created includeMeshes
          inheritGroupMaterials,
     let failed :=
       mkSUFile (SUModelLoadStatus_Failure kind) [] [] [] [] [] [] [] [] in
     LoadModel fuel (mkSketchUpAPI (fun _ => failed) created) this heap
       filename includeMeshes inheritGroupMaterials =
     Some (mkExit (Returned true)
             (mkSketchUp (Some []) (Some []) (Some []) (Some []) (Some [])
                (Some []) (Some []) (Some []) false)
             [SUInitialize; SUModelCreateFromFileWithStatus filename;
              SUModelRelease; SUTerminate],
           mkHeap (Parent heap) [])) /\
  (forall fuel api this heap filename includeMeshes inheritGroupMaterials
          e h,
     LoadModel fuel api this heap filename includeMeshes
       inheritGroupMaterials = Some (e, h) ->
     completion e <> Returned false).
Proof.
  split; [reflexivity|].
  intros fuel api this heap filename includeMeshes inherit e h Hload Hfalse.
  by destruct (LoadModel_Returned _ _ _ _ _ _ _ _ _ _ Hload Hfalse) as [? _].
Qed.

(** ** C4: material inheritance *)

Lemma foldl_pick_unset root us :
  Forall (fun u => unset u = true) us -> foldl pick root us = root.
Proof.
  intros Hus. revert root.
  induction Hus as [|u us Hu _ IH]; intros root; [done|].
  simpl. by rewrite (pick_unset _ _ Hu).
Qed.

Lemma foldl_pick_nearest root ms m us :
  unset m = false -> Forall (fun u => unset u = true) us ->
  foldl pick root (ms ++ m :: us) = m.
Proof.
  intros Hm Hus. rewrite foldl_app. simpl. rewrite (pick_explicit _ _ Hm).
  by apply foldl_pick_unset.
Qed.

Lemma FixMaterialRefs_at path grp child :
  group_at path grp = Some child ->
  group_at path (FixMaterialRefs grp) =
  Some (FixMaterialRefs_with
          (foldl pick (Group_Material grp) (materials_to path grp)) child).
Proof. apply FixMaterialRefs_with_at. Qed.

(** C4: for a group [G] with material [M1] holding a group [G2] whose
    material is unset, which holds a surface [S] whose front material is
    unset and whose back material [M2] is explicit, [FixMaterialRefs G]
    leaves [G2] with material [M1] and [S] with front [M1] and back [M2].
    In general the group reached along any path of nested groups ends with
    the material picked along the path (its own when explicit, else the one
    its parent ended with), each of its surfaces has its front and its
    back slot picked independently against that material, and a pick never
    replaces an explicit value: the nearest explicit material on the path
    wins. *)
Theorem FixMaterialRefs_inheritance :
  (forall M1 M2 U1 U2 gs1 gs2 gs' ss ss1 ss2 is1 is2 geometry,
     unset U1 = true -> unset U2 = true -> unset M2 = false ->
     let S := mkSurface U1 M2 geometry in
     let G2 := mkGroup U2 gs' (ss1 ++ S :: ss2) is2 in
     let G := mkGroup M1 (gs1 ++ G2 :: gs2) ss is1 in
     exists G2',
       Group_Groups (FixMaterialRefs G) !! length gs1 = Some G2' /\
       Group_Material G2' = M1 /\
       Group_Surfaces G2' !! length ss1 = Some (mkSurface M1 M2 geometry)) /\
  (forall grp path child,
     group_at path grp = Some child ->
     exists child',
       group_at path (FixMaterialRefs grp) = Some child' /\
       let m := foldl pick (Group_Material grp) (materials_to path grp) in
       Group_Material child' = m /\
       Group_Surfaces child' =
         (fun s => mkSurface (pick m (Surface_FrontMaterial s))
                             (pick m (Surface_BackMaterial s))
                             (Surface_Geometry s)) <$> Group_Surfaces child /\
       Group_Instances child' = Group_Instances child) /\
  (forall inherited own, unset own = false -> pick inherited own = own) /\
  (forall inherited own, unset own = true -> pick inherited own = inherited) /\
  (forall root ms m us,
     unset m = false -> Forall (fun u => unset u = true) us ->
     foldl pick root (ms ++ m :: us) = m).
Proof.
  split; [|split; [|split; [|split]]].
  - intros M1 M2 U1 U2 gs1 gs2 gs' ss ss1 ss2 is1 is2 geometry HU1 HU2 HM2
      S G2 G.
    unfold FixMaterialRefs. rewrite FixMaterialRefs_with_eq.
    cbn [G Group_Material Group_Groups]. rewrite list_lookup_fmap.
    rewrite list_lookup_middle by done. cbn [fmap option_fmap option_map].
    eexists. split; [reflexivity|].
    rewrite FixMaterialRefs_with_eq. cbn [Group_Material Group_Surfaces G2].
    rewrite (pick_unset _ _ HU2). split; [done|].
    rewrite list_lookup_fmap, list_lookup_middle by done.
    cbn [fmap option_fmap option_map]. rewrite FixSurface_pick. unfold S.
    cbn [Surface_FrontMaterial Surface_BackMaterial Surface_Geometry].
    by rewrite (pick_unset _ _ HU1), (pick_explicit _ _ HM2).
  - intros grp path child Hchild. eexists.
    split; [by apply FixMaterialRefs_at|].
    rewrite FixMaterialRefs_with_eq. simpl. split; [done|]. split; [|done].
    apply list_fmap_ext. intros _ s _. apply FixSurface_pick.
  - apply pick_explicit.
  - apply pick_unset.
  - apply foldl_pick_nearest.
Qed.

Lemma FixMaterialRefs_inheritance_witness :
  exists G2',
    Group_Groups (FixMaterialRefs outer_group) !! 0 = Some G2' /\
    Group_Material G2' = Brick /\
    Group_Surfaces G2' !! 0 = Some (mkSurface Brick Glass 7).
Proof.
  exact (proj1 FixMaterialRefs_inheritance Brick Glass no_material no_material
           [] [] [] [] [] [] [mkInstance "Window" 5] [] 7
           eq_refl eq_refl eq_refl).
Defined.

(** ** C5: running a pass twice *)

Lemma for_each_fmap {A B S} (f : A -> B) (body : B -> S -> option S) l st :
  for_each body (f <$> l) st = for_each (fun a => body (f a)) l st.
Proof.
  revert st. induction l as [|a l IH]; intros st; csimpl; [done|].
  destruct (body (f a) st); [apply IH|done].
Qed.

Lemma Resolver_Propagator fuel Components Instances Groups inherit h :
  Resolver fuel Components Instances (Propagator inherit Groups) h =
  Resolver fuel Components Instances Groups h.
Proof.
  unfold Resolver, Propagator.
  destruct (for_each _ Instances h) as [h1|]; [|done].
  destruct (for_each _ Components h1) as [h2|]; [|done].
  rewrite for_each_fmap. apply for_each_ext. intros grp g _.
  unfold FixRefs_Group. destruct inherit; [|done].
  by rewrite FixMaterialRefs_Instances.
Qed.

(** C5, counterexample: on the scene graph whose definitions [A] and [B]
    place an instance of each other, the Resolver does not return, whatever
    the bound on the recursion depth, the option and the heap it starts
    from: there is no state after a first run with which the state after
    a second run could be compared. *)
Lemma Resolver_cyclic_never_returns :
  ~ exists fuel inheritGroupMaterials h r,
      resolve_model fuel (entries [cyclic_A; cyclic_B]) [] []
        inheritGroupMaterials h = Some r.
Proof.
  intros (fuel & inherit & h & r & Hr).
  rewrite resolve_model_split, cyclic_Resolver_diverges in Hr. done.
Qed.

(** C5, amended: running [FixMaterialRefs] on its own result changes
    nothing, on every group tree.  On every scene graph whose definitions
    reference each other without a cycle, the resolution pass (the model's
    instances, [FixRefs] over all components and all groups, with or
    without [FixMaterialRefs] on the groups) returns for every large
    enough bound on the recursion depth, and run again on the heap and
    the groups it left it returns with the same [Parent] links and the
    same groups; so does one call of [FixRefs] on a definition.  On any
    scene graph, whenever a first run returns, the second returns with the
    same links and groups. *)
Theorem Resolver_Propagator_idempotent :
  (forall grp, FixMaterialRefs (FixMaterialRefs grp) = FixMaterialRefs grp) /\
  (forall rank fuel Components Instances Groups inheritGroupMaterials h,
     well_ranked Components rank = true ->
     enough_fuel Components rank <= fuel ->
     exists h1 Groups1 h2,
       resolve_model fuel Components Instances Groups inheritGroupMaterials h
         = Some (h1, Groups1) /\
       resolve_model fuel Components Instances Groups1 inheritGroupMaterials h1
         = Some (h2, Groups1) /\
       Parent h2 = Parent h1) /\
  (forall rank fuel Components comp h,
     well_ranked Components rank = true ->
     comp ∈ Components.*2 -> rank comp < fuel ->
     exists h1 h2,
       FixRefs fuel Components comp h = Some h1 /\
       FixRefs fuel Components comp h1 = Some h2 /\
       Parent h2 = Parent h1) /\
  (forall fuel Components comp h h1,
     FixRefs fuel Components comp h = Some h1 ->
     exists h2, FixRefs fuel Components comp h1 = Some h2 /\
                Parent h2 = Parent h1) /\
  (forall fuel Components Instances Groups inheritGroupMaterials h h1 Groups1,
     resolve_model fuel Components Instances Groups inheritGroupMaterials h
       = Some (h1, Groups1) ->
     exists h2,
       resolve_model fuel Components Instances Groups1 inheritGroupMaterials h1
         = Some (h2, Groups1) /\
       Parent h2 = Parent h1).
Proof.
  assert (forall fuel Components comp h h1,
     FixRefs fuel Components comp h = Some h1 ->
     exists h2, FixRefs fuel Components comp h1 = Some h2 /\
                Parent h2 = Parent h1) as Hcall.
  { intros fuel Components comp h h1 Hrun.
    destruct (FixRefs_replayable Components fuel comp h h1 Hrun) as [_ Hagain].
    by apply Hagain. }
  assert (forall fuel Components Instances Groups inherit h h1 Groups1,
     resolve_model fuel Components Instances Groups inherit h
       = Some (h1, Groups1) ->
     exists h2,
       resolve_model fuel Components Instances Groups1 inherit h1
         = Some (h2, Groups1) /\
       Parent h2 = Parent h1) as Hpass.
  { intros fuel Components Instances Groups inherit h h1 Groups1.
    rewrite resolve_model_split.
    destruct (Resolver fuel Components Instances Groups h) as [h'|] eqn:Hrun;
      [|done].
    intros [= -> <-]. rewrite resolve_model_split.
    rewrite Resolver_Propagator, Propagator_twice.
    destruct (Resolver_replayable Components fuel Instances Groups h h1 Hrun)
      as [_ Hagain].
    destruct (Hagain h1) as [h2 [-> HP]]; [done|]. by exists h2. }
  split; [apply FixMaterialRefs_twice|]. split; [|split; [|by split]].
  - intros rank fuel Components Instances Groups inherit h Hrank Hfuel.
    destruct (Resolver_terminates Components rank fuel Instances Groups h
                Hrank Hfuel) as [h1 Hrun].
    assert (resolve_model fuel Components Instances Groups inherit h
            = Some (h1, Propagator inherit Groups)) as Hfirst
      by (by rewrite resolve_model_split, Hrun).
    destruct (Hpass _ _ _ _ _ _ _ _ Hfirst) as [h2 Hsecond].
    by exists h1, (Propagator inherit Groups), h2.
  - intros rank fuel Components comp h Hrank Hcomp Hfuel.
    destruct (FixRefs_terminates Components rank fuel comp h Hrank Hcomp Hfuel)
      as [h1 Hrun].
    destruct (Hcall _ _ _ _ _ Hrun) as [h2 Hsecond]. by exists h1, h2.
Qed.

Lemma Resolver_Propagator_idempotent_witness :
  exists h1 Groups1 h2,
    resolve_model 3 (entries [House; Wall; Window])
      [mkInstance "House" 6; mkInstance "Garage" 8] [outer_group] true
      fresh_heap = Some (h1, Groups1) /\
    resolve_model 3 (entries [House; Wall; Window])
      [mkInstance "House" 6; mkInstance "Garage" 8] Groups1 true h1
      = Some (h2, Groups1) /\
    Parent h2 = Parent h1.
Proof.
  exact (proj1 (proj2 Resolver_Propagator_idempotent) house_rank 3
           (entries [House; Wall; Window])
           [mkInstance "House" 6; mkInstance "Garage" 8] [outer_group] true
           fresh_heap eq_refl (Nat.le_refl 3)).
Defined.

(** ** C6: an instance whose [ParentID] names no definition *)

(** C6: after a load that returns, the [Parent] of every instance of the
    file whose [ParentID] is no key of the [Components] mapping is
    [nullptr], and the cell of any other such instance (an object of an
    earlier load) is the one the heap held; however [LoadModel] ends, it
    creates no link for such an instance; and such instances do not make
    the load fail: on a file that loads, [LoadModel] returns [true] for
    every large enough bound on the recursion depth. *)
Theorem LoadModel_unresolved_is_valid api this heap filename includeMeshes
    inheritGroupMaterials :
  let file := model_at api filename in
  (forall fuel e h b var,
     LoadModel fuel api this heap filename includeMeshes
       inheritGroupMaterials = Some (e, h) ->
     completion e = Returned b ->
     Item (entries (file_components file)) (Instance_ParentID var) = None ->
     Parent h !! var =
     if decide (var ∈ objects_of file) then None else Parent heap !! var) /\
  (forall fuel e h var,
     LoadModel fuel api this heap filename includeMeshes
       inheritGroupMaterials = Some (e, h) ->
     Item (entries (file_components file)) (Instance_ParentID var) = None ->
     Parent heap !! var = None ->
     Parent h !! var = None) /\
  (forall rank, loadable rank file ->
     exists fuel0, forall fuel, fuel0 <= fuel ->
       exists e h,
         LoadModel fuel api this heap filename includeMeshes
           inheritGroupMaterials = Some (e, h) /\
         completion e = Returned true /\
         Components (object e) = Some (entries (file_components file))).
Proof.
  intros file.
  assert (forall fuel e h b var,
     LoadModel fuel api this heap filename includeMeshes
       inheritGroupMaterials = Some (e, h) ->
     completion e = Returned b ->
     Item (entries (file_components file)) (Instance_ParentID var) = None ->
     Parent h !! var =
     if decide (var ∈ objects_of file) then None else Parent heap !! var)
    as Hreturned.
  { intros fuel e h b var Hload He Hvar.
    destruct (LoadModel_Returned _ _ _ _ _ _ _ _ _ _ Hload He)
      as (_ & _ & _ & Hpass).
    apply Resolver_cellwise in Hpass.
    rewrite (cellwise_unresolvable _ _ _ _ Hpass Hvar).
    apply extraction_lookup. }
  split; [exact Hreturned|]. split.
  - intros fuel e h var Hload Hvar Hnull.
    destruct (completion e) as [b|x] eqn:He.
    + rewrite (Hreturned _ _ _ _ _ Hload He Hvar), Hnull.
      by destruct (decide _).
    + revert Hload He. unfold LoadModel.
      destruct (try_each add_Material _ _) as [[? ?]|materials].
      { by intros [= <- <-]. }
      destruct (try_each add_Component _ _) as [[? ?]|components].
      { intros [= <- <-] _. rewrite !allocate_lookup. cbn [Parent].
        rewrite Hnull. by repeat destruct (decide _). }
      destruct (resolve_model _ _ _ _ _ _) as [[? ?]|]; [|done].
      by intros [= <- <-].
  - intros rank Hfile.
    exists (enough_fuel (entries (file_components file)) rank).
    intros fuel Hfuel.
    destruct (LoadModel_loadable rank fuel api this heap filename
                includeMeshes inheritGroupMaterials Hfile Hfuel)
      as [h [_ Hload]].
    eexists _, h. split; [exact Hload|]. done.
Qed.

Lemma LoadModel_unresolved_is_valid_witness :
  exists e h,
    LoadModel 3 house_api empty_object fresh_heap "house.skp" false true
      = Some (e, h) /\
    completion e = Returned true /\
    Parent h !! mkInstance "Shed" 4 = None /\
    Parent h !! mkInstance "Garage" 8 = None.
Proof.
  eexists _, _. split; [reflexivity|]. split; [reflexivity|].
  split.
  - exact (proj1 (LoadModel_unresolved_is_valid house_api empty_object
                    fresh_heap "house.skp" false true) 3 _ _ true
             (mkInstance "Shed" 4) eq_refl eq_refl eq_refl).
  - exact (proj1 (LoadModel_unresolved_is_valid house_api empty_object
                    fresh_heap "house.skp" false true) 3 _ _ true
             (mkInstance "Garage" 8) eq_refl eq_refl eq_refl).
Defined.

(** ** C7: the newer-version flag *)

Lemma is_Success_MoreRecent_spec status :
  is_Success_MoreRecent status = true <->
  status = SUModelLoadStatus_Success_MoreRecent.
Proof. by destruct status. Qed.

(** C7: however [LoadModel] ends, [MoreRecentFileVersion] is [true] exactly
    when the status is success-with-newer-version; and on a file that
    loads, whatever its status, [LoadModel] returns [true] with every
    collection filled from the tables of the file. *)
Theorem LoadModel_MoreRecentFileVersion api this heap filename
    includeMeshes inheritGroupMaterials :
  let file := model_at api filename in
  (forall fuel e h,
     LoadModel fuel api this heap filename includeMeshes
       inheritGroupMaterials = Some (e, h) ->
     (MoreRecentFileVersion (object e) = true <->
      file_status file = SUModelLoadStatus_Success_MoreRecent)) /\
  (forall rank, loadable rank file ->
     exists fuel0, forall fuel, fuel0 <= fuel ->
       exists e h,
         LoadModel fuel api this heap filename includeMeshes
           inheritGroupMaterials = Some (e, h) /\
         completion e = Returned true /\
         Surfaces (object e) = Some (file_surfaces file) /\
         Layers (object e) = Some (file_layers file) /\
         Groups (object e) =
           Some (Propagator inheritGroupMaterials (file_groups file)) /\
         Components (object e) = Some (entries (file_components file)) /\
         Materials (object e) = Some (Materials_of (file_materials file)) /\
         Instances (object e) = Some (file_instances file) /\
         Curves (object e) = Some (file_curves file) /\
         Edges (object e) = Some (file_edges file)).
Proof.
  intros file. split.
  - intros fuel e h Hload. rewrite (LoadModel_flag _ _ _ _ _ _ _ _ _ Hload).
    apply is_Success_MoreRecent_spec.
  - intros rank Hfile.
    exists (enough_fuel (entries (file_components file)) rank).
    intros fuel Hfuel.
    destruct (LoadModel_loadable rank fuel api this heap filename
                includeMeshes inheritGroupMaterials Hfile Hfuel)
      as [h [_ Hload]].
    eexists _, h. split; [exact Hload|]. done.
Qed.

Lemma LoadModel_MoreRecentFileVersion_witness :
  exists e h,
    LoadModel 3 house_api empty_object fresh_heap "house.skp" false true
      = Some (e, h) /\
    completion e = Returned true /\
    MoreRecentFileVersion (object e) = true.
Proof.
  eexists _, _. split; [reflexivity|]. split; [reflexivity|].
  apply (proj1 (LoadModel_MoreRecentFileVersion house_api empty_object
                  fresh_heap "house.skp" false true) 3 _ _ eq_refl).
  reflexivity.
Defined.

(** ** C8: release of the native handle *)

(** C8, the code at the failing input: when [SUModelCreate] fails,
    [WriteNewModel] returns [false] after [SUInitialize] and
    [SUModelCreate] alone: neither [SUModelRelease] nor [SUTerminate] is
    called on this exit.  Every exit by [return true], of [WriteNewModel]
    and of the three other operations, makes both calls last. *)
Theorem WriteNewModel_failed_create_skips_SUTerminate :
  (forall files code this filename version,
     let e := WriteNewModel (mkSketchUpAPI files (SU_ERROR_OTHER code)) this
                filename version in
     e = mkExit (Returned false) this [SUInitialize; SUModelCreate] /\
     (SUTerminate ∉ calls e) /\ (SUModelRelease ∉ calls e)) /\
  (forall api this filename version,
     completion (WriteNewModel api this filename version) = Returned true ->
     exists before,
       calls (WriteNewModel api this filename version) =
       before ++ [SUModelRelease; SUTerminate]) /\
  (forall api this filename,
     completion (AppendToModel api this filename) = Returned true ->
     exists before,
       calls (AppendToModel api this filename) =
       before ++ [SUModelRelease; SUTerminate]) /\
  (forall api this filename version newFilename,
     exists before,
       calls (SaveAs api this filename version newFilename) =
       before ++ [SUModelRelease; SUTerminate]) /\
  (forall fuel api this heap filename includeMeshes inheritGroupMaterials
          e h b,
     LoadModel fuel api this heap filename includeMeshes
       inheritGroupMaterials = Some (e, h) ->
     completion e = Returned b ->
     exists before, calls e = before ++ [SUModelRelease; SUTerminate]).
Proof.
  split; [|split; [|split; [|split]]].
  - intros files code this filename version. simpl. split; [done|].
    split; intros H; repeat (apply elem_of_cons in H as [H|H]; [done|]);
      by apply elem_of_nil in H.
  - intros api this filename version. unfold WriteNewModel.
    destruct (is_SU_ERROR_NONE (new_model api)); [|done]. simpl.
    destruct (add_entities this) as [added [x|]]; [done|]. intros _. simpl.
    exists ([SUInitialize; SUModelCreate] ++ added ++
            [SUModelSaveToFileWithVersion filename (ToSUVersion version)]).
    by rewrite <- !app_assoc.
  - intros api this filename. unfold AppendToModel.
    destruct (add_entities _) as [added [x|]]; [done|]. intros _. simpl.
    exists ([SUInitialize; SUModelCreateFromFileWithStatus filename] ++ added
            ++ [SUModelSaveToFile filename]).
    by rewrite <- !app_assoc.
  - intros api this filename version newFilename.
    by exists [SUInitialize; SUModelCreateFromFileWithStatus filename;
               SUModelSaveToFileWithVersion newFilename (ToSUVersion version)].
  - intros fuel api this heap filename includeMeshes inherit e h b.
    unfold LoadModel.
    destruct (try_each add_Material _ _) as [[? ?]|materials].
    { by intros [= <- _]. }
    destruct (try_each add_Component _ _) as [[? ?]|components].
    { by intros [= <- _]. }
    destruct (resolve_model _ _ _ _ _ _) as [[? ?]|]; [|done].
    intros [= <- _] _.
    by exists [SUInitialize; SUModelCreateFromFileWithStatus filename].
Qed.

(** ** C9: materials that share a name *)

(** C9: the loop over the materials of the file never throws; however
    [LoadModel] ends, [Materials] holds at most one entry per name, and the
    entry of a name is the first material of the file with that name; and a
    file that loads returns [true] whatever names its materials have. *)
Theorem LoadModel_Materials_first_wins api this heap filename includeMeshes
    inheritGroupMaterials :
  let file := model_at api filename in
  (exists d, try_each add_Material (file_materials file) [] = inr d) /\
  (forall fuel e h,
     LoadModel fuel api this heap filename includeMeshes
       inheritGroupMaterials = Some (e, h) ->
     exists d,
       Materials (object e) = Some d /\
       NoDup d.*1 /\
       forall name,
         Item d name =
         find (fun m => String.eqb (Material_Name m) name)
              (file_materials file)) /\
  (forall rank, loadable rank file ->
     exists fuel0, forall fuel, fuel0 <= fuel ->
       exists e h,
         LoadModel fuel api this heap filename includeMeshes
           inheritGroupMaterials = Some (e, h) /\
         completion e = Returned true).
Proof.
  intros file. split; [|split].
  - eexists. apply add_Material_never_throws.
  - intros fuel e h. unfold LoadModel. fold file.
    rewrite add_Material_never_throws.
    assert (Materials (object e) = Some (Materials_of (file_materials file)) ->
            exists d, Materials (object e) = Some d /\ NoDup d.*1 /\
              forall name, Item d name =
                find (fun m => String.eqb (Material_Name m) name)
                     (file_materials file)) as Hd.
    { intros ->. eexists. split; [done|].
      split; [apply Materials_of_NoDup|]. intros name.
      apply Materials_of_Item. }
    destruct (try_each add_Component _ _) as [[? ?]|components].
    { intros [= <- _]. by apply Hd. }
    destruct (resolve_model _ _ _ _ _ _) as [[? ?]|]; [|done].
    intros [= <- _]. by apply Hd.
  - intros rank Hfile.
    exists (enough_fuel (entries (file_components file)) rank).
    intros fuel Hfuel.
    destruct (LoadModel_loadable rank fuel api this heap filename
                includeMeshes inheritGroupMaterials Hfile Hfuel)
      as [h [_ Hload]].
    eexists _, h. split; [exact Hload|done].
Qed.

Lemma LoadModel_Materials_first_wins_witness :
  exists e h d,
    LoadModel 3 house_api empty_object fresh_heap "house.skp" false true
      = Some (e, h) /\
    Materials (object e) = Some d /\
    NoDup d.*1 /\
    Item d "Brick" = Some Brick.
Proof.
  eexists _, _.
  destruct (proj1 (proj2 (LoadModel_Materials_first_wins house_api
                            empty_object fresh_heap "house.skp" false true))
              3 _ _ eq_refl) as [d [Hd [Hnodup Hitem]]].
  exists d. split; [reflexivity|]. split; [exact Hd|]. split; [exact Hnodup|].
  rewrite Hitem. reflexivity.
Defined.

(** ** C10: the flag after a save *)

(** C10: after [SaveAs] and after [AppendToModel], however it ends,
    [MoreRecentFileVersion] is [true] exactly when the status of the file
    the operation opened is success-with-newer-version, whatever the flag
    was, and every other member is the one the object had; so a flag that
    was [true] is [false] after either operation on a file of any other
    status, and after a load that set the flag, a [SaveAs] from a file of
    the current version returns [true] with the flag reset. *)
Theorem SaveAs_AppendToModel_overwrite_flag :
  (forall api this filename version newFilename,
     let after := object (SaveAs api this filename version newFilename) in
     (MoreRecentFileVersion after = true <->
      file_status (model_at api filename)
        = SUModelLoadStatus_Success_MoreRecent) /\
     Surfaces after = Surfaces this /\ Layers after = Layers this /\
     Groups after = Groups this /\ Components after = Components this /\
     Materials after = Materials this /\ Instances after = Instances this /\
     Curves after = Curves this /\ Edges after = Edges this) /\
  (forall api this filename,
     let after := object (AppendToModel api this filename) in
     (MoreRecentFileVersion after = true <->
      file_status (model_at api filename)
        = SUModelLoadStatus_Success_MoreRecent) /\
     Surfaces after = Surfaces this /\ Layers after = Layers this /\
     Groups after = Groups this /\ Components after = Components this /\
     Materials after = Materials this /\ Instances after = Instances this /\
     Curves after = Curves this /\ Edges after = Edges this) /\
  (forall api this filename version newFilename,
     MoreRecentFileVersion this = true ->
     file_status (model_at api filename)
       <> SUModelLoadStatus_Success_MoreRecent ->
     MoreRecentFileVersion
       (object (SaveAs api this filename version newFilename)) = false /\
     MoreRecentFileVersion (object (AppendToModel api this filename))
       = false) /\
  (exists e h,
     LoadModel 3 house_api empty_object fresh_heap "house.skp" false false
       = Some (e, h) /\
     completion e = Returned true /\
     MoreRecentFileVersion (object e) = true /\
     completion (SaveAs house_api (object e) "old.skp" V2021 "copy.skp")
       = Returned true /\
     MoreRecentFileVersion
       (object (SaveAs house_api (object e) "old.skp" V2021 "copy.skp"))
       = false /\
     completion (AppendToModel house_api (object e) "old.skp")
       = Returned true /\
     MoreRecentFileVersion
       (object (AppendToModel house_api (object e) "old.skp"))
       = false).
Proof.
  assert (forall api this filename,
    object (AppendToModel api this filename) =
    set_MoreRecentFileVersion
      (is_Success_MoreRecent (file_status (model_at api filename))) this)
    as Happend.
  { intros api this filename. unfold AppendToModel.
    by destruct (add_entities _) as [added [e|]]. }
  split; [|split; [|split]].
  - intros api this filename version newFilename. simpl.
    split; [apply is_Success_MoreRecent_spec|done].
  - intros api this filename. simpl. rewrite Happend. simpl.
    split; [apply is_Success_MoreRecent_spec|done].
  - intros api this filename version newFilename _ Hstatus.
    rewrite Happend. simpl.
    by destruct (file_status (model_at api filename)).
  - eexists _, _. split; [reflexivity|]. repeat split.
Qed.

Lemma SaveAs_AppendToModel_overwrite_flag_witness :
  MoreRecentFileVersion (loaded house_file false) = true /\
  MoreRecentFileVersion
    (object (SaveAs house_api (loaded house_file false) "old.skp" V2021
               "copy.skp")) = false /\
  MoreRecentFileVersion
    (object (AppendToModel house_api (loaded house_file false) "old.skp"))
    = false.
Proof.
  split; [reflexivity|].
  apply (proj1 (proj2 (proj2 SaveAs_AppendToModel_overwrite_flag)) house_api
           (loaded house_file false) "old.skp" V2021 "copy.skp");
    [reflexivity|discriminate].
Defined.

(** * Further properties of the code *)

(** ** When [LoadModel] returns, throws, or does neither *)

Lemma entries_app l1 l2 : entries (l1 ++ l2) = entries l1 ++ entries l2.
Proof. unfold entries. apply fmap_app. Qed.

(** A run of [Components->Add] that does not throw met distinct [Guid]s,
    and appended one entry per definition. *)
Lemma add_Component_loop_inv components : forall d d',
  try_each add_Component components d = inr d' ->
  NoDup d.*1 ->
  NoDup (d.*1 ++ (Component_Guid <$> components)) /\
  d' = d ++ entries components.
Proof.
  induction components as [|c components IH]; intros d d'; csimpl.
  - intros [= <-] Hd. by rewrite !app_nil_r.
  - unfold add_Component at 1. unfold Add.
    destruct (ContainsKey d (Component_Guid c)) eqn:Hkey; [done|].
    intros Hrest Hd. apply ContainsKey_false, Item_None_keys in Hkey.
    destruct (IH _ _ Hrest) as [Hnodup ->].
    { rewrite fmap_app. apply NoDup_app. split; [done|].
      split; [|apply NoDup_singleton].
      by intros k Hk [->|[]%elem_of_nil]%elem_of_cons. }
    rewrite fmap_app, <- app_assoc in Hnodup. split; [done|].
    by rewrite <- app_assoc.
Qed.

(** The first repeated [Guid] makes [Add] throw, with the definitions
    before it in the dictionary. *)
Lemma add_Component_loop_dup components : forall acc,
  NoDup (Component_Guid <$> acc) ->
  ~ NoDup (Component_Guid <$> (acc ++ components)) ->
  exists before c rest,
    components = before ++ c :: rest /\
    NoDup (Component_Guid <$> (acc ++ before)) /\
    Component_Guid c ∈ Component_Guid <$> (acc ++ before) /\
    try_each add_Component components (entries acc)
      = inl (ArgumentException, entries (acc ++ before)).
Proof.
  induction components as [|c components IH]; intros acc Hacc Hdup.
  - by rewrite app_nil_r in Hdup.
  - destruct (decide (Component_Guid c ∈ Component_Guid <$> acc))
      as [Hin|Hout].
    + exists [], c, components. rewrite app_nil_r.
      split; [done|]. split; [done|]. split; [done|].
      cbn [try_each]. unfold add_Component. rewrite Add_present; [done|].
      apply not_eq_None_Some. rewrite Item_None_keys, entries_keys. tauto.
    + destruct (IH (acc ++ [c]))
        as (before & c' & rest & -> & Hnodup & Hc' & Hthrow).
      { rewrite fmap_app. apply NoDup_app. split; [done|].
        split; [|apply NoDup_singleton].
        by intros k Hk [->|[]%elem_of_nil]%elem_of_cons. }
      { by rewrite <- app_assoc. }
      rewrite <- app_assoc in Hnodup, Hc', Hthrow.
      exists (c :: before), c', rest.
      split; [done|]. split; [done|]. split; [done|].
      cbn [try_each]. unfold add_Component at 1. rewrite Add_fresh.
      * change [(Component_Guid c, c)] with (entries [c]).
        by rewrite <- entries_app.
      * rewrite Item_None_keys, entries_keys. done.
Qed.

(** Whether a loop returns does not depend on the state it starts from,
    when that holds of its body. *)
Lemma for_each_returns_anywhere {A S} (body : A -> S -> option S) l :
  (forall x st st', x ∈ l -> is_Some (body x st) -> is_Some (body x st')) ->
  forall st st', is_Some (for_each body l st) -> is_Some (for_each body l st').
Proof.
  induction l as [|x l IH]; intros Hbody st st'; simpl; [by eexists|].
  destruct (body x st) as [s1|] eqn:Hx; [|by intros [? ?]].
  destruct (Hbody x st st' (list_elem_of_here _ _)) as [s1' ->]; [by eexists|].
  apply IH. intros y ? ? Hy. apply Hbody. by apply list_elem_of_further.
Qed.

(** In a loop that returns, every iteration returned. *)
Lemma for_each_returns_each {A S} (body : A -> S -> option S) l x :
  x ∈ l ->
  forall st, is_Some (for_each body l st) -> exists s, is_Some (body x s).
Proof.
  induction l as [|y l IH]; [by intros ?%elem_of_nil|].
  intros Hin st. simpl.
  destruct (body y st) as [s1|] eqn:Hy; [|by intros [? ?]].
  apply elem_of_cons in Hin as [->|Hin]; [|by apply IH].
  intros _. exists st. by rewrite Hy.
Qed.

Section Returning.
Variable Components : Dictionary Component.

Lemma FixRefs_returns_anywhere fuel : forall comp h g,
  is_Some (FixRefs fuel Components comp h) ->
  is_Some (FixRefs fuel Components comp g).
Proof.
  induction fuel as [|fuel IH]; intros comp h g; [by intros [? ?]|].
  rewrite !FixRefs_S. apply for_each_returns_anywhere.
  intros var st st' _. unfold resolve.
  destruct (Item Components (Instance_ParentID var)); [apply IH|by eexists].
Qed.

(** An activation that returns at depth [S fuel] had every descent return
    at depth [fuel]. *)
Lemma FixRefs_descents_return fuel comp h var o g :
  is_Some (FixRefs (S fuel) Components comp h) ->
  var ∈ Component_Instances comp ->
  Item Components (Instance_ParentID var) = Some o ->
  is_Some (FixRefs fuel Components o g).
Proof.
  rewrite FixRefs_S. intros Hloop Hvar Ho.
  destruct (for_each_returns_each _ _ var Hvar _ Hloop) as [s Hs].
  unfold resolve in Hs. rewrite Ho in Hs.
  by eapply FixRefs_returns_anywhere.
Qed.

Lemma first_returning_spec bound n c h :
  is_Some (FixRefs n Components c h) -> n <= bound ->
  first_returning Components bound c <= n /\
  is_Some
    (FixRefs (first_returning Components bound c) Components c fresh_heap).
Proof.
  intros Hn Hle. apply (FixRefs_returns_anywhere _ _ _ fresh_heap) in Hn.
  unfold first_returning.
  destruct (list_find _ _) as [[i x]|] eqn:Hfind.
  - apply list_find_Some in Hfind as (Hx & HP & Hmin).
    apply lookup_seq in Hx as [-> Hi]. simpl in HP. split; [|done].
    destruct (decide (i <= n)) as [|Hlt]; [done|]. exfalso.
    apply (Hmin n n); [|lia|done]. apply lookup_seq. split; [done|lia].
  - apply list_find_None in Hfind. rewrite Forall_forall in Hfind.
    exfalso. apply (Hfind n); [|done]. apply elem_of_seq. lia.
Qed.

(** If [FixRefs] returns on every definition of the mapping, the least
    depths at which it does are a rank that every reference goes down. *)
Lemma returning_well_ranked fuel :
  (forall c, c ∈ Components.*2 ->
     is_Some (FixRefs fuel Components c fresh_heap)) ->
  well_ranked Components (first_returning Components fuel) = true.
Proof.
  intros Hall. unfold well_ranked. apply forallb_forall.
  intros e He%list_elem_of_In. apply forallb_forall.
  intros var Hvar%list_elem_of_In.
  destruct (Item Components (Instance_ParentID var)) as [o|] eqn:Ho; [|done].
  apply Nat.ltb_lt.
  assert (e.2 ∈ Components.*2) as Hc by (by apply list_elem_of_fmap_2).
  destruct (first_returning_spec fuel fuel e.2 fresh_heap (Hall _ Hc))
    as [Hle Hret]; [done|].
  destruct (first_returning Components fuel e.2) as [|r]; [by destruct Hret|].
  pose proof (FixRefs_descents_return r e.2 fresh_heap var o fresh_heap
                Hret Hvar Ho) as Hchild.
  destruct (first_returning_spec fuel r o fresh_heap Hchild); lia.
Qed.

End Returning.

(** The resolution pass, once the two dictionaries are built without a
    throw, is all that is left of [LoadModel]. *)
Lemma LoadModel_Resolver fuel api this heap filename includeMeshes inherit
    h :
  let file := model_at api filename in
  NoDup (Component_Guid <$> file_components file) ->
  Resolver fuel (entries (file_components file)) (file_instances file)
    (file_groups file) (extraction file heap) = Some h ->
  LoadModel fuel api this heap filename includeMeshes inherit =
  Some (mkExit (Returned true) (loaded file inherit)
          [SUInitialize; SUModelCreateFromFileWithStatus filename;
           SUModelRelease; SUTerminate], h).
Proof.
  intros file Hnodup Hpass. unfold LoadModel. fold file.
  rewrite add_Material_never_throws.
  rewrite (add_Component_loop _ []) by done. cbn [app].
  rewrite entries_values. fold (extraction file heap).
  by rewrite resolve_model_split, Hpass.
Qed.

Lemma LoadModel_Returned_NoDup fuel api this heap filename includeMeshes
    inherit e h b :
  LoadModel fuel api this heap filename includeMeshes inherit = Some (e, h) ->
  completion e = Returned b ->
  NoDup (Component_Guid <$> file_components (model_at api filename)).
Proof.
  intros Hload Hret.
  destruct (LoadModel_Returned _ _ _ _ _ _ _ _ _ _ Hload Hret)
    as (_ & _ & Hadd & _).
  by destruct (add_Component_loop_inv _ _ _ Hadd (NoDup_nil_2)) as [? _].
Qed.

(** X1: [LoadModel] returns, for some bound on the recursion depth, exactly
    when the definitions of the file have distinct [Guid]s and the
    references between them go down in some rank: a file with a cycle of
    definitions never returns.  The heap has no part in it. *)
Theorem LoadModel_returns_iff_loadable api this heap filename includeMeshes
    inheritGroupMaterials :
  (exists fuel e h,
     LoadModel fuel api this heap filename includeMeshes
       inheritGroupMaterials = Some (e, h) /\
     completion e = Returned true) <->
  (exists rank, loadable rank (model_at api filename)).
Proof.
  split.
  - intros (fuel & e & h & Hload & Hret).
    exists (first_returning (entries (file_components (model_at api filename)))
              fuel).
    split; [by eapply LoadModel_Returned_NoDup|].
    destruct (LoadModel_Returned _ _ _ _ _ _ _ _ _ _ Hload Hret)
      as (_ & _ & _ & Hpass).
    apply returning_well_ranked. intros c Hc.
    unfold Resolver in Hpass.
    destruct (for_each _ (file_instances _) (extraction _ _)) as [h1|];
      [|done].
    destruct (for_each (fun cmp g => FixRefs fuel _ cmp.2 g) _ h1)
      as [h2|] eqn:Hloop; [|done].
    apply list_elem_of_fmap_1 in Hc as [cmp [-> Hcmp]].
    destruct (for_each_returns_each
                (fun cmp g =>
                   FixRefs fuel
                     (entries (file_components (model_at api filename)))
                     cmp.2 g) _ cmp Hcmp h1) as [s Hs];
      [by rewrite Hloop|].
    by eapply FixRefs_returns_anywhere.
  - intros [rank Hfile].
    destruct (LoadModel_loadable rank _ api this heap filename includeMeshes
                inheritGroupMaterials Hfile (Nat.le_refl _)) as [h [_ Hload]].
    eexists _, _, h. split; [exact Hload|done].
Qed.

Lemma LoadModel_returns_iff_loadable_witness :
  exists fuel e h,
    LoadModel fuel house_api empty_object fresh_heap "house.skp" false true
      = Some (e, h)
    /\ completion e = Returned true.
Proof.
  apply (proj2 (LoadModel_returns_iff_loadable house_api empty_object
                  fresh_heap "house.skp" false true)).
  exists house_rank. exact house_loadable.
Defined.

(** X2: when two definitions of the file share a [Guid], [LoadModel] throws
    [ArgumentException] at the second of them, whatever the bound on the
    recursion depth: the resolution pass is not reached, [Components] holds
    the definitions before the repeated one, [Layers], [Groups] and
    [Materials] are those of the new file while [Surfaces], [Instances],
    [Curves] and [Edges] are still those the object had, and neither
    [SUModelRelease] nor [SUTerminate] is called.  No [Parent] is
    assigned: the objects created with the new groups and definitions have
    none, and every other object, the instances the object still holds
    among them, keeps the [Parent] it had.  [LoadModel] throws in no other
    case. *)
Theorem LoadModel_duplicate_Guid_throws api this heap filename includeMeshes
    inheritGroupMaterials :
  let file := model_at api filename in
  (~ NoDup (Component_Guid <$> file_components file) ->
   exists before c rest,
     file_components file = before ++ c :: rest /\
     NoDup (Component_Guid <$> before) /\
     Component_Guid c ∈ Component_Guid <$> before /\
     forall fuel,
       exists h,
         LoadModel fuel api this heap filename includeMeshes
           inheritGroupMaterials =
         Some (mkExit (Thrown ArgumentException)
                 (mkSketchUp (Surfaces this) (Some (file_layers file))
                    (Some (file_groups file)) (Some (entries before))
                    (Some (Materials_of (file_materials file)))
                    (Instances this) (Curves this) (Edges this)
                    (is_Success_MoreRecent (file_status file)))
                 [SUInitialize; SUModelCreateFromFileWithStatus filename],
               h) /\
         Expanded h = [] /\
         forall var,
           Parent h !! var =
           if decide (var ∈ concat (Component_Instances <$> before)
                            ++ concat (Group_objects <$> file_groups file))
           then None else Parent heap !! var) /\
  (forall fuel e h x,
     LoadModel fuel api this heap filename includeMeshes
       inheritGroupMaterials = Some (e, h) ->
     completion e = Thrown x ->
     x = ArgumentException /\
     ~ NoDup (Component_Guid <$> file_components file)).
Proof.
  intros file.
  assert (~ NoDup (Component_Guid <$> file_components file) ->
    exists before c rest,
      file_components file = before ++ c :: rest /\
      NoDup (Component_Guid <$> before) /\
      Component_Guid c ∈ Component_Guid <$> before /\
      try_each add_Component (file_components file) []
        = inl (ArgumentException, entries before)) as Hdup.
  { intros Hdup.
    apply (add_Component_loop_dup _ []); [apply NoDup_nil_2|done]. }
  split.
  - intros (before & c & rest & Hsplit & Hnodup & Hc & Hthrow)%Hdup.
    exists before, c, rest. split; [done|]. split; [done|]. split; [done|].
    intros fuel. unfold LoadModel. fold file.
    rewrite add_Material_never_throws, Hthrow, entries_values, allocate_app.
    eexists. split; [reflexivity|]. split; [reflexivity|].
    intros var. apply (allocate_lookup _ (mkHeap _ _)).
  - intros fuel e h x. unfold LoadModel. fold file.
    rewrite add_Material_never_throws.
    destruct (decide (NoDup (Component_Guid <$> file_components file)))
      as [Hnodup|Hnodup].
    + rewrite (add_Component_loop _ []) by done.
      destruct (resolve_model _ _ _ _ _ _) as [[? ?]|]; [|done].
      by intros [= <- _].
    + destruct (Hdup Hnodup) as (before & c & rest & _ & _ & _ & ->).
      by intros [= <- _] [= <-].
Qed.

(** A load of the house, then a load of the file with two doors on the
    object the first one left: the second throws, and the instance of
    [House] that the object still holds keeps its [Parent]. *)
Lemma LoadModel_duplicate_Guid_throws_witness :
  exists e1 h1,
    LoadModel 3 house_api empty_object fresh_heap "house.skp" false false
      = Some (e1, h1) /\
    exists e2 h2,
      LoadModel 0 doors_api (object e1) h1 "doors.skp" false false
        = Some (e2, h2) /\
      completion e2 = Thrown ArgumentException /\
      Instances (object e2)
        = Some [mkInstance "House" 6; mkInstance "Garage" 8] /\
      Parent h2 !! mkInstance "House" 6 = Some House /\
      Parent h2 !! mkInstance "Window" 5 = None.
Proof.
  eexists _, _. split; [reflexivity|].
  match goal with
  | |- exists e2 h2, LoadModel _ _ ?this ?heap _ _ _ = _ /\ _ =>
      destruct (proj1 (LoadModel_duplicate_Guid_throws doors_api this heap
                         "doors.skp" false false))
        as (before & c & rest & _ & _ & _ & Hthrow)
  end.
  { intros Hnodup. change (NoDup ["Window"; "Door"; "Door"; "Wall"]) in Hnodup.
    apply NoDup_cons in Hnodup as [_ Hnodup].
    apply NoDup_cons in Hnodup as [Hdoor _].
    apply Hdoor, list_elem_of_here. }
  destruct (Hthrow 0) as (h2 & Hload & _ & _).
  eexists _, h2. split; [exact Hload|]. split; [reflexivity|].
  split; [reflexivity|].
  vm_compute in Hload. injection Hload as _ <-. by split.
Defined.

(** ** The [Parent] links a load leaves *)

Lemma elem_of_resolved_instances file var :
  var ∈ resolved_instances file <->
  var ∈ file_instances file
  \/ (exists c, c ∈ file_components file /\ var ∈ Component_Instances c)
  \/ (exists g, g ∈ file_groups file /\ var ∈ Group_Instances g).
Proof.
  unfold resolved_instances.
  rewrite !elem_of_app, !elem_of_concat.
  split.
  - intros [?|[(l & Hvar & Hl)|(l & Hvar & Hl)]]; [by left| |].
    + apply list_elem_of_fmap_1 in Hl as (c & -> & Hc). right. left. eauto.
    + apply list_elem_of_fmap_1 in Hl as (g & -> & Hg). right. right. eauto.
  - intros [?|[(c & Hc & Hvar)|(g & Hg & Hvar)]]; [by left| |].
    + right. left. exists (Component_Instances c). split; [done|].
      by apply list_elem_of_fmap_2.
    + right. right. exists (Group_Instances g). split; [done|].
      by apply list_elem_of_fmap_2.
Qed.

Section Untouched.
Variable Components : Dictionary Component.
Variable var : Instance.
Hypothesis not_in_definitions :
  forall c, c ∈ Components.*2 -> var ∉ Component_Instances c.

(** A loop over instances that are not [var], descending into steps that
    leave the cell of [var], leaves the cell of [var]. *)
Lemma resolve_loop_untouched descend l h h' :
  (forall o g g', o ∈ Components.*2 -> descend o g = Some g' ->
     Parent g' !! var = Parent g !! var) ->
  var ∉ l ->
  for_each (resolve Components descend) l h = Some h' ->
  Parent h' !! var = Parent h !! var.
Proof.
  intros Hdescend Hvar.
  apply (for_each_rel (fun a b => Parent b !! var = Parent a !! var));
    [done|congruence|].
  intros x g g' Hx. unfold resolve.
  destruct (Item Components (Instance_ParentID x)) as [o|] eqn:Ho.
  - intros Hd. rewrite (Hdescend o _ _ (Item_value _ _ _ Ho) Hd). simpl.
    apply lookup_insert_ne. by intros ->.
  - by intros [= ->].
Qed.

Lemma FixRefs_untouched fuel : forall comp h h',
  comp ∈ Components.*2 ->
  FixRefs fuel Components comp h = Some h' ->
  Parent h' !! var = Parent h !! var.
Proof.
  induction fuel as [|fuel IH]; intros comp h h' Hcomp; [done|].
  rewrite FixRefs_S. intros Hloop.
  by rewrite (resolve_loop_untouched _ _ _ _ IH (not_in_definitions _ Hcomp)
                Hloop).
Qed.

Lemma Resolver_untouched fuel Instances Groups h h' :
  var ∉ Instances ->
  (forall g, g ∈ Groups -> var ∉ Group_Instances g) ->
  Resolver fuel Components Instances Groups h = Some h' ->
  Parent h' !! var = Parent h !! var.
Proof.
  intros Hinst Hgroups. unfold Resolver.
  destruct (for_each _ Instances h) as [h1|] eqn:H1; [|done].
  destruct (for_each _ Components h1) as [h2|] eqn:H2; [|done]. intros H3.
  apply resolve_loop_untouched in H1; [|by intros ? ? ? _ [= ->]|done].
  rewrite <- H1. transitivity (Parent h2 !! var).
  - revert H3.
    apply (for_each_rel (fun a b => Parent b !! var = Parent a !! var));
      [done|congruence|].
    intros grp g g' Hgrp. unfold FixRefs_Group.
    apply resolve_loop_untouched; [|by apply Hgroups].
    intros o a a'. apply FixRefs_untouched.
  - revert H2.
    apply (for_each_rel (fun a b => Parent b !! var = Parent a !! var));
      [done|congruence|].
    intros cmp g g' Hcmp. apply FixRefs_untouched.
    by apply list_elem_of_fmap_2.
Qed.

End Untouched.

(** The cell of every instance after the pass: the definition its
    [ParentID] names when the pass ran over it, and else the cell the pass
    started from. *)
Lemma Resolver_Parent_cell fuel Components Instances Groups h0 h var :
  Resolver fuel Components Instances Groups h0 = Some h ->
  Parent h !! var =
  match
    (if decide (var ∈ Instances
                      ++ concat (Component_Instances <$> Components.*2)
                      ++ concat (Group_Instances <$> Groups))
     then Item Components (Instance_ParentID var)
     else None)
  with
  | Some o => Some o
  | None => Parent h0 !! var
  end.
Proof.
  intros Hpass. destruct (decide _) as [Hin|Hout].
  - destruct (Item Components (Instance_ParentID var)) as [o|] eqn:Ho.
    + eapply Resolver_links; [exact Hpass|exact Ho|].
      rewrite !elem_of_app, !elem_of_concat in Hin.
      destruct Hin as [?|[(l & Hvar & Hl)|(l & Hvar & Hl)]]; [by left| |].
      * apply list_elem_of_fmap_1 in Hl as (c & -> & Hc). right. left. eauto.
      * apply list_elem_of_fmap_1 in Hl as (g & -> & Hg). right. right. eauto.
    + apply Resolver_cellwise in Hpass.
      by rewrite (cellwise_unresolvable _ _ _ _ Hpass Ho).
  - rewrite !elem_of_app, !elem_of_concat in Hout.
    rewrite (Resolver_untouched Components var) with
      (h := h0) (h' := h) (fuel := fuel)
      (Instances := Instances) (Groups := Groups); [done| | | |done].
    + intros c Hc Hvar. apply Hout. right. left.
      exists (Component_Instances c). split; [done|].
      by apply list_elem_of_fmap_2.
    + intros Hvar. apply Hout. by left.
    + intros g Hg Hvar. apply Hout. right. right.
      exists (Group_Instances g). split; [done|].
      by apply list_elem_of_fmap_2.
Qed.

Lemma elem_of_objects_of file var :
  var ∈ objects_of file <->
  var ∈ file_instances file
  \/ (exists c, c ∈ file_components file /\ var ∈ Component_Instances c)
  \/ (exists g, g ∈ file_groups file /\ var ∈ Group_objects g).
Proof.
  unfold objects_of.
  rewrite !elem_of_app, !elem_of_concat.
  split.
  - intros [?|[(l & Hvar & Hl)|(l & Hvar & Hl)]]; [by left| |].
    + apply list_elem_of_fmap_1 in Hl as (c & -> & Hc). right. left. eauto.
    + apply list_elem_of_fmap_1 in Hl as (g & -> & Hg). right. right. eauto.
  - intros [?|[(c & Hc & Hvar)|(g & Hg & Hvar)]]; [by left| |].
    + right. left. exists (Component_Instances c). split; [done|].
      by apply list_elem_of_fmap_2.
    + right. right. exists (Group_objects g). split; [done|].
      by apply list_elem_of_fmap_2.
Qed.

(** The instances the pass runs over are objects of the load. *)
Lemma resolved_instances_objects file var :
  var ∈ resolved_instances file -> var ∈ objects_of file.
Proof.
  rewrite elem_of_resolved_instances, elem_of_objects_of.
  intros [?|[?|(g & Hg & Hvar)]]; [by left|by right; left|].
  right. right. exists g. split; [done|by apply Group_objects_own].
Qed.

(** The cell of every instance after the pass over the tables of a file,
    started once the objects of the file are created. *)
Lemma Resolver_extraction_cell fuel file heap h var :
  Resolver fuel (entries (file_components file)) (file_instances file)
    (file_groups file) (extraction file heap) = Some h ->
  Parent h !! var =
  if decide (var ∈ resolved_instances file)
  then Item (entries (file_components file)) (Instance_ParentID var)
  else if decide (var ∈ objects_of file) then None else Parent heap !! var.
Proof.
  intros Hpass.
  rewrite (Resolver_Parent_cell _ _ _ _ _ _ var Hpass), entries_values.
  fold (resolved_instances file). rewrite extraction_lookup.
  destruct (decide (var ∈ resolved_instances file)) as [Hin|Hout]; [|done].
  destruct (Item _ _); [done|].
  by rewrite decide_True by (by apply resolved_instances_objects).
Qed.

(** X3: after a load that returns, the [Parent] of an instance is the
    definition stored under its [ParentID] when the instance belongs to the
    model root, to a definition of the file or to a top-level group, and
    [nullptr] when it is any other object of the load; the instances
    owned by nested groups, which no loop reaches, stay unresolved even
    when their [ParentID] names a definition.  The objects of the earlier
    loads keep the [Parent] they had. *)
Theorem LoadModel_Parent_links fuel api this heap filename includeMeshes
    inheritGroupMaterials e h b var :
  let file := model_at api filename in
  LoadModel fuel api this heap filename includeMeshes inheritGroupMaterials
    = Some (e, h) ->
  completion e = Returned b ->
  Parent h !! var =
  if decide (var ∈ resolved_instances file)
  then Item (entries (file_components file)) (Instance_ParentID var)
  else if decide (var ∈ objects_of file) then None else Parent heap !! var.
Proof.
  intros file Hload Hret.
  destruct (LoadModel_Returned _ _ _ _ _ _ _ _ _ _ Hload Hret)
    as (_ & _ & _ & Hpass).
  exact (Resolver_extraction_cell _ _ _ _ var Hpass).
Qed.

Lemma LoadModel_Parent_links_witness :
  exists e h,
    LoadModel 1 nesting_api empty_object fresh_heap "nesting.skp" false false
      = Some (e, h) /\
    Parent h !! mkInstance "Window" 12 = Some Window /\
    Parent h !! mkInstance "Window" 11 = None.
Proof.
  eexists _, _. split; [reflexivity|]. split.
  - by rewrite (LoadModel_Parent_links 1 nesting_api empty_object fresh_heap
                  "nesting.skp" false false _ _ true (mkInstance "Window" 12)
                  eq_refl eq_refl).
  - by rewrite (LoadModel_Parent_links 1 nesting_api empty_object fresh_heap
                  "nesting.skp" false false _ _ true (mkInstance "Window" 11)
                  eq_refl eq_refl).
Defined.

Lemma entries_Item components key o :
  Item (entries components) key = Some o ->
  o ∈ components /\ Component_Guid o = key.
Proof.
  intros H%Item_Some_elem. unfold entries in H.
  apply list_elem_of_fmap_1 in H as (c & [= -> ->] & Hc). done.
Qed.

(** X4: after a load that returns, the [Parent] of an object of the load,
    when set, points at a definition of the file whose [Guid] is the
    [ParentID] of the instance, and the instance is one the pass runs
    over; so does the [Parent] of any instance that had none before the
    load. *)
Theorem LoadModel_Parent_is_named_definition fuel api this heap filename
    includeMeshes inheritGroupMaterials e h b var o :
  let file := model_at api filename in
  LoadModel fuel api this heap filename includeMeshes inheritGroupMaterials
    = Some (e, h) ->
  completion e = Returned b ->
  var ∈ objects_of file \/ Parent heap !! var = None ->
  Parent h !! var = Some o ->
  o ∈ file_components file /\
  Component_Guid o = Instance_ParentID var /\
  (exists d, Components (object e) = Some d /\
             Item d (Instance_ParentID var) = Some o) /\
  var ∈ resolved_instances file.
Proof.
  intros file Hload Hret Hnew Hvar.
  destruct (LoadModel_Returned _ _ _ _ _ _ _ _ _ _ Hload Hret)
    as (_ & -> & _ & Hpass).
  rewrite (Resolver_extraction_cell _ _ _ _ var Hpass) in Hvar.
  fold file in Hvar.
  destruct (decide (var ∈ resolved_instances file)).
  - destruct (entries_Item _ _ _ Hvar).
    split; [done|]. split; [done|]. split; [|done]. by eexists.
  - destruct (decide (var ∈ objects_of file)); [done|].
    destruct Hnew; [done|congruence].
Qed.

Lemma LoadModel_Parent_is_named_definition_witness :
  exists e h,
    LoadModel 3 house_api empty_object fresh_heap "house.skp" false true
      = Some (e, h) /\
    Component_Guid Wall = Instance_ParentID (mkInstance "Wall" 3) /\
    mkInstance "Wall" 3 ∈ resolved_instances house_file.
Proof.
  eexists _, _. split; [reflexivity|].
  destruct (LoadModel_Parent_is_named_definition 3 house_api empty_object
              fresh_heap "house.skp" false true _ _ true
              (mkInstance "Wall" 3) Wall
              eq_refl eq_refl (or_intror eq_refl) eq_refl)
    as (_ & HGuid & _ & Hin).
  split; [exact HGuid|exact Hin].
Defined.

(** ** The order of the tables *)

Lemma Item_Permutation {V} (d1 d2 : Dictionary V) key :
  NoDup d1.*1 -> d1 ≡ₚ d2 -> Item d1 key = Item d2 key.
Proof.
  intros Hnodup Hperm. destruct (Item d1 key) as [v|] eqn:H1.
  - symmetry. apply Item_elem_NoDup; [by rewrite <- Hperm|].
    rewrite <- Hperm. by apply Item_Some_elem.
  - symmetry. apply Item_None_keys. rewrite <- Hperm.
    by apply Item_None_keys.
Qed.

(** X5: the [Parent] links that a load leaves do not depend on the order in
    which the file lists its definitions, its instances or its top-level
    groups: two loads that return, from heaps with the same links, of files
    whose tables are permutations of each other, leave the same links. *)
Theorem LoadModel_order_of_tables fuel1 fuel2 api1 api2 this1 this2
    heap1 heap2 filename1 filename2 includeMeshes1 includeMeshes2
    inherit1 inherit2 e1 e2 h1 h2 b1 b2 :
  let file1 := model_at api1 filename1 in
  let file2 := model_at api2 filename2 in
  LoadModel fuel1 api1 this1 heap1 filename1 includeMeshes1 inherit1
    = Some (e1, h1) ->
  completion e1 = Returned b1 ->
  LoadModel fuel2 api2 this2 heap2 filename2 includeMeshes2 inherit2
    = Some (e2, h2) ->
  completion e2 = Returned b2 ->
  Parent heap1 = Parent heap2 ->
  file_components file1 ≡ₚ file_components file2 ->
  file_instances file1 ≡ₚ file_instances file2 ->
  file_groups file1 ≡ₚ file_groups file2 ->
  Parent h1 = Parent h2.
Proof.
  intros file1 file2 Hload1 Hret1 Hload2 Hret2 Hheap Hcomps Hinsts Hgroups.
  pose proof (LoadModel_Returned_NoDup _ _ _ _ _ _ _ _ _ _ Hload1 Hret1)
    as Hnodup. fold file1 in Hnodup.
  destruct (LoadModel_Returned _ _ _ _ _ _ _ _ _ _ Hload1 Hret1)
    as (_ & _ & _ & Hpass1).
  destruct (LoadModel_Returned _ _ _ _ _ _ _ _ _ _ Hload2 Hret2)
    as (_ & _ & _ & Hpass2).
  apply map_eq. intros var.
  rewrite (Resolver_extraction_cell _ _ _ _ var Hpass1).
  rewrite (Resolver_extraction_cell _ _ _ _ var Hpass2).
  fold file1. fold file2. rewrite Hheap.
  rewrite (Item_Permutation (entries (file_components file1))
             (entries (file_components file2)));
    [|by rewrite entries_keys|by apply fmap_Permutation].
  assert (var ∈ resolved_instances file1 <-> var ∈ resolved_instances file2)
    as Hiff.
  { rewrite !elem_of_resolved_instances.
    rewrite Hinsts.
    split; (intros [?|[(c & Hc & ?)|(g & Hg & ?)]]; [by left| |]).
    - rewrite Hcomps in Hc. eauto.
    - rewrite Hgroups in Hg. eauto 6.
    - rewrite <- Hcomps in Hc. eauto.
    - rewrite <- Hgroups in Hg. eauto 6. }
  assert (var ∈ objects_of file1 <-> var ∈ objects_of file2) as Hobjects.
  { rewrite !elem_of_objects_of.
    rewrite Hinsts.
    split; (intros [?|[(c & Hc & ?)|(g & Hg & ?)]]; [by left| |]).
    - rewrite Hcomps in Hc. eauto.
    - rewrite Hgroups in Hg. eauto 6.
    - rewrite <- Hcomps in Hc. eauto.
    - rewrite <- Hgroups in Hg. eauto 6. }
  destruct (decide (var ∈ resolved_instances file1)) as [H1|H1];
    destruct (decide (var ∈ resolved_instances file2)) as [H2|H2];
    [done|tauto|tauto|].
  destruct (decide (var ∈ objects_of file1)) as [H3|H3];
    destruct (decide (var ∈ objects_of file2)) as [H4|H4];
    tauto.
Qed.

Lemma LoadModel_order_of_tables_witness :
  exists e1 h1 e2 h2,
    LoadModel 2 (diamond_api [diamond_A; diamond_B; diamond_C]) empty_object
      fresh_heap "diamond.skp" false false = Some (e1, h1) /\
    LoadModel 2 (diamond_api [diamond_C; diamond_B; diamond_A]) empty_object
      fresh_heap "diamond.skp" false false = Some (e2, h2) /\
    Parent h1 = Parent h2.
Proof.
  eexists _, _, _, _. split; [reflexivity|]. split; [reflexivity|].
  apply (LoadModel_order_of_tables 2 2
           (diamond_api [diamond_A; diamond_B; diamond_C])
           (diamond_api [diamond_C; diamond_B; diamond_A])
           empty_object empty_object fresh_heap fresh_heap
           "diamond.skp" "diamond.skp"
           false false false false _ _ _ _ true true
           eq_refl eq_refl eq_refl eq_refl eq_refl).
  - symmetry. apply (reverse_Permutation [diamond_A; diamond_B; diamond_C]).
  - done.
  - done.
Defined.

(** ** What [FixMaterialRefs] changes and what it leaves *)

Lemma skeleton_eq grp :
  skeleton grp =
  mkGroup blank (skeleton <$> Group_Groups grp)
    (Surface_skeleton <$> Group_Surfaces grp) (Group_Instances grp).
Proof. by destruct grp. Qed.

Lemma all_explicit_eq grp :
  all_explicit grp =
  forallb (fun g => negb (unset (Group_Material g)) && all_explicit g)
    (Group_Groups grp)
  && forallb Surface_explicit (Group_Surfaces grp).
Proof. by destruct grp. Qed.

Lemma FixMaterialRefs_with_skeleton grp : forall m,
  skeleton (FixMaterialRefs_with m grp) = skeleton grp.
Proof.
  induction grp as [own groups surfaces instances IH] using Group_nested_ind.
  intros m. rewrite FixMaterialRefs_with_eq, !skeleton_eq.
  cbn [Group_Groups Group_Surfaces Group_Instances]. f_equal.
  - rewrite <- list_fmap_compose. apply Forall_fmap_ext_1.
    eapply Forall_impl; [exact IH|]. intros g Hg. apply Hg.
  - rewrite <- list_fmap_compose. by apply list_fmap_ext.
Qed.

(** X6: [FixMaterialRefs] changes material slots only: the nesting of the
    groups, the number and the geometry of the surfaces and the instances
    of every group are those it was given, and the material of the group
    it is called on is not reassigned. *)
Theorem FixMaterialRefs_keeps_skeleton grp :
  skeleton (FixMaterialRefs grp) = skeleton grp /\
  Group_Material (FixMaterialRefs grp) = Group_Material grp.
Proof.
  split; [apply FixMaterialRefs_with_skeleton|apply FixMaterialRefs_Material].
Qed.

Lemma unset_pick inherited own :
  unset inherited = false -> unset (pick inherited own) = false.
Proof. intros Hm. unfold pick. by destruct (unset own) eqn:Hown. Qed.

Lemma FixMaterialRefs_with_all_explicit grp : forall m,
  unset m = false -> all_explicit (FixMaterialRefs_with m grp) = true.
Proof.
  induction grp as [own groups surfaces instances IH] using Group_nested_ind.
  intros m Hm. rewrite FixMaterialRefs_with_eq, all_explicit_eq.
  cbn [Group_Groups Group_Surfaces]. apply andb_true_iff. split.
  - apply forallb_forall. intros g' Hg'%list_elem_of_In.
    apply list_elem_of_fmap_1 in Hg' as (g & -> & Hg).
    rewrite Forall_forall in IH.
    rewrite (IH g Hg _ (unset_pick m _ Hm)), andb_true_r.
    replace (Group_Material
               (FixMaterialRefs_with (pick m (Group_Material g)) g))
      with (pick m (Group_Material g)) by (by destruct g).
    by rewrite (unset_pick m _ Hm).
  - apply forallb_forall. intros s' Hs'%list_elem_of_In.
    apply list_elem_of_fmap_1 in Hs' as (s & -> & _).
    rewrite FixSurface_pick. unfold Surface_explicit. simpl.
    by rewrite !(unset_pick m _ Hm).
Qed.

(** X7: when the group [FixMaterialRefs] is called on has an explicit
    material, no slot below it is left unset: every nested group, at every
    depth, and both sides of every surface end with an explicit
    material. *)
Theorem FixMaterialRefs_fills_every_slot grp :
  unset (Group_Material grp) = false ->
  all_explicit (FixMaterialRefs grp) = true.
Proof. apply FixMaterialRefs_with_all_explicit. Qed.

Lemma FixMaterialRefs_fills_every_slot_witness :
  all_explicit outer_group = false /\
  all_explicit (FixMaterialRefs outer_group) = true.
Proof.
  split; [reflexivity|].
  exact (FixMaterialRefs_fills_every_slot outer_group eq_refl).
Defined.

Lemma FixMaterialRefs_with_explicit grp : forall m,
  all_explicit grp = true -> FixMaterialRefs_with m grp = set_Material m grp.
Proof.
  induction grp as [own groups surfaces instances IH] using Group_nested_ind.
  intros m. rewrite FixMaterialRefs_with_eq, all_explicit_eq.
  cbn [Group_Groups Group_Surfaces Group_Instances].
  intros [Hgroups Hsurfaces]%andb_true_iff. unfold set_Material. simpl.
  rewrite forallb_forall in Hgroups. rewrite forallb_forall in Hsurfaces.
  f_equal.
  - rewrite <- (list_fmap_id groups) at 2. apply Forall_fmap_ext_1.
    rewrite Forall_forall in IH. apply Forall_forall. intros g Hg.
    specialize (Hgroups g (proj1 (list_elem_of_In _ _) Hg)).
    apply andb_true_iff in Hgroups as [Hown%negb_true_iff Hbelow].
    rewrite (pick_explicit _ _ Hown), (IH g Hg _ Hbelow). by destruct g.
  - rewrite <- (list_fmap_id surfaces) at 2. apply list_fmap_ext.
    intros _ s Hs%list_elem_of_lookup_2.
    specialize (Hsurfaces s (proj1 (list_elem_of_In _ _) Hs)).
    apply andb_true_iff in Hsurfaces
      as [Hfront%negb_true_iff Hback%negb_true_iff].
    rewrite FixSurface_pick, (pick_explicit _ _ Hfront),
      (pick_explicit _ _ Hback). by destruct s.
Qed.

(** X8: on a group below which every slot is explicit, [FixMaterialRefs]
    changes nothing at all, whatever the material of the group itself. *)
Theorem FixMaterialRefs_explicit_unchanged grp :
  all_explicit grp = true -> FixMaterialRefs grp = grp.
Proof.
  intros H. unfold FixMaterialRefs.
  rewrite (FixMaterialRefs_with_explicit _ _ H). by destruct grp.
Qed.

Lemma FixMaterialRefs_explicit_unchanged_witness :
  FixMaterialRefs glazed_group = glazed_group.
Proof. exact (FixMaterialRefs_explicit_unchanged glazed_group eq_refl). Defined.

Lemma unset_pick_iff inherited own :
  unset (pick inherited own) = true <->
  unset inherited = true /\ unset own = true.
Proof.
  unfold pick. destruct (unset own) eqn:Hown.
  - split; [by split|by intros [? _]].
  - rewrite Hown. split; [done|by intros [_ ?]].
Qed.

Lemma unset_foldl_pick ms : forall root,
  unset (foldl pick root ms) = true <->
  unset root = true /\ Forall (fun m => unset m = true) ms.
Proof.
  induction ms as [|m ms IH]; intros root; simpl.
  - split; [by split|by intros [? _]].
  - rewrite IH, unset_pick_iff, Forall_cons. tauto.
Qed.

(** X9: after [FixMaterialRefs], the material of a nested group is unset
    exactly when the material of the group the call was made on and the
    materials of all groups on the way down were unset; and a side of a
    surface is unset exactly when it was unset and its group ends
    unset. *)
Theorem FixMaterialRefs_unset_slots grp path child :
  group_at path grp = Some child ->
  exists child',
    group_at path (FixMaterialRefs grp) = Some child' /\
    (unset (Group_Material child') = true <->
     unset (Group_Material grp) = true /\
     Forall (fun m => unset m = true) (materials_to path grp)) /\
    forall i s, Group_Surfaces child !! i = Some s ->
      exists s',
        Group_Surfaces child' !! i = Some s' /\
        (unset (Surface_FrontMaterial s') = true <->
         unset (Surface_FrontMaterial s) = true /\
         unset (Group_Material child') = true) /\
        (unset (Surface_BackMaterial s') = true <->
         unset (Surface_BackMaterial s) = true /\
         unset (Group_Material child') = true).
Proof.
  intros Hchild. eexists. split; [by apply FixMaterialRefs_at|].
  rewrite FixMaterialRefs_with_eq.
  cbn [Group_Material Group_Surfaces]. split; [apply unset_foldl_pick|].
  intros i s Hs. eexists. rewrite list_lookup_fmap, Hs.
  split; [reflexivity|]. rewrite FixSurface_pick.
  cbn [Surface_FrontMaterial Surface_BackMaterial].
  rewrite !unset_pick_iff. tauto.
Qed.

Lemma FixMaterialRefs_unset_slots_witness :
  exists child',
    group_at [0] (FixMaterialRefs outer_group) = Some child' /\
    unset (Group_Material child') = false.
Proof.
  destruct (FixMaterialRefs_unset_slots outer_group [0] inner_group eq_refl)
    as (child' & Hat & Hunset & _).
  exists child'. split; [exact Hat|].
  destruct (unset (Group_Material child')); [|done].
  by destruct (proj1 Hunset eq_refl) as [? _].
Defined.

(** ** The collections after a load *)

(** X10: after a load that returns, [Components] holds the definitions of
    the file in the order of the file, each under its own [Guid]: looking
    up the [Guid] of a definition of the file gives that definition, and a
    key that is found is the [Guid] of the definition it gives. *)
Theorem LoadModel_Components_by_Guid fuel api this heap filename
    includeMeshes inheritGroupMaterials e h b :
  let file := model_at api filename in
  LoadModel fuel api this heap filename includeMeshes inheritGroupMaterials
    = Some (e, h) ->
  completion e = Returned b ->
  exists d,
    Components (object e) = Some d /\
    d.*2 = file_components file /\
    d.*1 = Component_Guid <$> file_components file /\
    (forall c, c ∈ file_components file ->
       Item d (Component_Guid c) = Some c) /\
    (forall key c, Item d key = Some c ->
       c ∈ file_components file /\ Component_Guid c = key).
Proof.
  intros file Hload Hret.
  pose proof (LoadModel_Returned_NoDup _ _ _ _ _ _ _ _ _ _ Hload Hret)
    as Hnodup. fold file in Hnodup.
  destruct (LoadModel_Returned _ _ _ _ _ _ _ _ _ _ Hload Hret)
    as (_ & -> & _ & _). fold file.
  exists (entries (file_components file)). split; [done|].
  split; [apply entries_values|]. split; [apply entries_keys|]. split.
  - intros c Hc. apply Item_elem_NoDup; [by rewrite entries_keys|].
    unfold entries.
    by apply (list_elem_of_fmap_2 (fun c => (Component_Guid c, c))).
  - intros key c. apply entries_Item.
Qed.

Lemma LoadModel_Components_by_Guid_witness :
  exists e h d,
    LoadModel 3 house_api empty_object fresh_heap "house.skp" false true
      = Some (e, h) /\
    Components (object e) = Some d /\
    Item d "Wall" = Some Wall.
Proof.
  eexists _, _.
  destruct (LoadModel_Components_by_Guid 3 house_api empty_object fresh_heap
              "house.skp" false true _ _ true eq_refl eq_refl)
    as (d & Hd & _ & _ & Hitem & _).
  exists d. split; [reflexivity|]. split; [exact Hd|].
  apply (Hitem Wall). apply list_elem_of_further, list_elem_of_here.
Defined.

(** Whether the resolution pass returns does not depend on the heap it
    starts from. *)
Lemma Resolver_returns_anywhere fuel Components Instances Groups h g :
  is_Some (Resolver fuel Components Instances Groups h) ->
  is_Some (Resolver fuel Components Instances Groups g).
Proof.
  unfold Resolver.
  destruct (for_each _ Instances h) as [h1|] eqn:H1; [|by intros [? ?]].
  destruct (for_each_returns_anywhere
              (resolve Components (fun _ h => Some h)) Instances)
    with (st := h) (st' := g) as [g1 ->].
  { intros var st st' _ _. unfold resolve. destruct (Item _ _); by eexists. }
  { by rewrite H1. }
  destruct (for_each _ Components h1) as [h2|] eqn:H2; [|by intros [? ?]].
  destruct (for_each_returns_anywhere
              (fun cmp h => FixRefs fuel Components cmp.2 h) Components)
    with (st := h1) (st' := g1) as [g2 ->].
  { intros cmp st st' _. apply FixRefs_returns_anywhere. }
  { by rewrite H2. }
  apply for_each_returns_anywhere. intros grp st st' _.
  unfold FixRefs_Group. apply for_each_returns_anywhere.
  intros var a a' _. unfold resolve.
  destruct (Item _ _); [apply FixRefs_returns_anywhere|by eexists].
Qed.

(** X11: a load that returns leaves nothing of what the object held
    before: the object, the links and the calls are the same from any
    previous state of the object, and from any other heap the load
    returns with the same object, the same calls and the same [Parent]
    for every object of the load. *)
Theorem LoadModel_replaces_the_object fuel api this this' heap heap' filename
    includeMeshes inheritGroupMaterials e h b :
  let file := model_at api filename in
  LoadModel fuel api this heap filename includeMeshes inheritGroupMaterials
    = Some (e, h) ->
  completion e = Returned b ->
  LoadModel fuel api this' heap filename includeMeshes inheritGroupMaterials
    = Some (e, h) /\
  exists h',
    LoadModel fuel api this' heap' filename includeMeshes
      inheritGroupMaterials = Some (e, h') /\
    forall var, var ∈ objects_of file -> Parent h' !! var = Parent h !! var.
Proof.
  intros file Hload Hret.
  pose proof (LoadModel_Returned_NoDup _ _ _ _ _ _ _ _ _ _ Hload Hret)
    as Hnodup.
  destruct (LoadModel_Returned _ _ _ _ _ _ _ _ _ _ Hload Hret)
    as (_ & _ & _ & Hpass).
  pose proof (LoadModel_Resolver fuel api this heap filename includeMeshes
                inheritGroupMaterials h Hnodup Hpass) as Heq.
  rewrite Heq in Hload. injection Hload as <-.
  split.
  - exact (LoadModel_Resolver fuel api this' heap filename includeMeshes
             inheritGroupMaterials h Hnodup Hpass).
  - destruct (Resolver_returns_anywhere fuel _ _ _ _
                (extraction file heap') (mk_is_Some _ _ Hpass))
      as [h' Hpass'].
    pose proof (LoadModel_Resolver fuel api this' heap' filename
                  includeMeshes inheritGroupMaterials h' Hnodup Hpass')
      as Hload'.
    exists h'. split; [exact Hload'|]. intros var Hvar.
    rewrite (Resolver_extraction_cell _ _ _ _ var Hpass').
    rewrite (Resolver_extraction_cell _ _ _ _ var Hpass).
    fold file. destruct (decide _); [done|]. by rewrite !decide_True.
Qed.

Lemma LoadModel_replaces_the_object_witness :
  exists e h,
    LoadModel 3 house_api empty_object fresh_heap "house.skp" false true
      = Some (e, h) /\
    LoadModel 3 house_api (object e) fresh_heap "house.skp" false true
      = Some (e, h) /\
    exists h',
      LoadModel 3 house_api (object e) h "house.skp" false true
        = Some (e, h') /\
      Parent h' !! mkInstance "House" 6 = Some House.
Proof.
  eexists _, _. split; [reflexivity|].
  match goal with
  | |- _ /\ exists h', LoadModel _ _ ?o ?h _ _ _ = _ /\ _ =>
      destruct (LoadModel_replaces_the_object 3 house_api empty_object o
                  fresh_heap h "house.skp" false true _ _ true
                  eq_refl eq_refl) as (Hsame & h' & Hload' & Hcells)
  end.
  split; [exact Hsame|]. exists h'. split; [exact Hload'|].
  rewrite Hcells; [reflexivity|].
  apply (bool_decide_unpack _). vm_compute. exact I.
Defined.

(** X12: [inheritGroupMaterials] bears on [Groups] alone.  A load returns
    with the option exactly when it returns without it, with the same
    [Parent] links, the same calls and the same members other than
    [Groups]; without the option [Groups] holds the groups as extracted,
    with it [FixMaterialRefs] of each of them. *)
Theorem LoadModel_inheritGroupMaterials fuel api this heap filename
    includeMeshes e h b :
  let file := model_at api filename in
  LoadModel fuel api this heap filename includeMeshes false = Some (e, h) ->
  completion e = Returned b ->
  Groups (object e) = Some (file_groups file) /\
  LoadModel fuel api this heap filename includeMeshes true =
  Some (mkExit (completion e)
          (mkSketchUp (Surfaces (object e)) (Layers (object e))
             (Some (FixMaterialRefs <$> file_groups file))
             (Components (object e)) (Materials (object e))
             (Instances (object e)) (Curves (object e)) (Edges (object e))
             (MoreRecentFileVersion (object e)))
          (calls e), h).
Proof.
  intros file Hload Hret.
  pose proof (LoadModel_Returned_NoDup _ _ _ _ _ _ _ _ _ _ Hload Hret)
    as Hnodup.
  destruct (LoadModel_Returned _ _ _ _ _ _ _ _ _ _ Hload Hret)
    as (_ & _ & _ & Hpass).
  rewrite (LoadModel_Resolver fuel api this heap filename includeMeshes false
             h Hnodup Hpass) in Hload.
  injection Hload as <-. fold file. split.
  - simpl. unfold Propagator. by rewrite list_fmap_id.
  - by rewrite (LoadModel_Resolver fuel api this heap filename includeMeshes
                  true h Hnodup Hpass).
Qed.

Lemma LoadModel_inheritGroupMaterials_witness :
  exists e h,
    LoadModel 3 house_api empty_object fresh_heap "house.skp" false false
      = Some (e, h) /\
    Groups (object e) = Some [outer_group].
Proof.
  eexists _, _. split; [reflexivity|].
  exact (proj1 (LoadModel_inheritGroupMaterials 3 house_api empty_object
                  fresh_heap "house.skp" false _ _ true eq_refl eq_refl)).
Defined.

(** ** Saving *)

(** X13: on the object a load left, [AppendToModel] returns [true] and
    [WriteNewModel], when the model is created, returns [true]: neither
    throws, and what they hand to the library before saving is the
    surfaces, the edges and the curves of the model root of the loaded
    file, in this order, and nothing else: no group, definition, instance,
    material or layer is written. *)
Theorem save_after_load fuel api this heap filename includeMeshes
    inheritGroupMaterials e h b api' path version :
  let file := model_at api filename in
  LoadModel fuel api this heap filename includeMeshes inheritGroupMaterials
    = Some (e, h) ->
  completion e = Returned b ->
  AppendToModel api' (object e) path =
    mkExit (Returned true)
      (set_MoreRecentFileVersion
         (is_Success_MoreRecent (file_status (model_at api' path)))
         (object e))
      [SUInitialize; SUModelCreateFromFileWithStatus path;
       SUEntitiesAddFaces (file_surfaces file);
       SUEntitiesAddEdges (file_edges file);
       SUEntitiesAddCurves (file_curves file);
       SUModelSaveToFile path; SUModelRelease; SUTerminate] /\
  (new_model api' = SU_ERROR_NONE ->
   WriteNewModel api' (object e) path version =
     mkExit (Returned true) (object e)
       [SUInitialize; SUModelCreate;
        SUEntitiesAddFaces (file_surfaces file);
        SUEntitiesAddEdges (file_edges file);
        SUEntitiesAddCurves (file_curves file);
        SUModelSaveToFileWithVersion path (ToSUVersion version);
        SUModelRelease; SUTerminate]).
Proof.
  intros file Hload Hret.
  destruct (LoadModel_Returned _ _ _ _ _ _ _ _ _ _ Hload Hret)
    as (_ & Hobject & _ & _). fold file in Hobject.
  split.
  - unfold AppendToModel, add_entities. by rewrite Hobject.
  - intros Hcreated. unfold WriteNewModel, add_entities.
    by rewrite Hcreated, Hobject.
Qed.

Lemma save_after_load_witness :
  exists e h,
    LoadModel 3 house_api empty_object fresh_heap "house.skp" false true
      = Some (e, h) /\
    completion (AppendToModel house_api (object e) "house.skp")
      = Returned true /\
    completion (WriteNewModel house_api (object e) "copy.skp" V2019)
      = Returned true.
Proof.
  eexists _, _. split; [reflexivity|].
  destruct (save_after_load 3 house_api empty_object fresh_heap "house.skp"
              false true _ _ true house_api "house.skp" V2019
              eq_refl eq_refl) as [Happend _].
  destruct (save_after_load 3 house_api empty_object fresh_heap "house.skp"
              false true _ _ true house_api "copy.skp" V2019
              eq_refl eq_refl) as [_ Hwrite].
  split; [by rewrite Happend|by rewrite (Hwrite eq_refl)].
Defined.

(** X14: on an object whose [Surfaces] is still [nullptr] (no load was
    made), [AppendToModel] and, when the model is created, [WriteNewModel]
    throw [NullReferenceException] before anything is added or saved, and
    without [SUModelRelease] or [SUTerminate]; [AppendToModel] has by then
    overwritten the flag.  [SaveAs] does not read the collections and
    returns [true]. *)
Theorem save_before_load api this path version newFilename :
  Surfaces this = None ->
  AppendToModel api this path =
    mkExit (Thrown NullReferenceException)
      (set_MoreRecentFileVersion
         (is_Success_MoreRecent (file_status (model_at api path))) this)
      [SUInitialize; SUModelCreateFromFileWithStatus path] /\
  (new_model api = SU_ERROR_NONE ->
   WriteNewModel api this path version =
     mkExit (Thrown NullReferenceException) this
       [SUInitialize; SUModelCreate]) /\
  completion (SaveAs api this path version newFilename) = Returned true.
Proof.
  intros Hnull. split; [|split; [|done]].
  - unfold AppendToModel, add_entities. simpl. by rewrite Hnull.
  - intros Hcreated. unfold WriteNewModel, add_entities.
    by rewrite Hcreated, Hnull.
Qed.

Lemma save_before_load_witness :
  completion (AppendToModel house_api empty_object "house.skp")
    = Thrown NullReferenceException /\
  completion (WriteNewModel house_api empty_object "copy.skp" V2021)
    = Thrown NullReferenceException.
Proof.
  destruct (save_before_load house_api empty_object "house.skp" V2021
              "copy.skp" eq_refl) as (Happend & _ & _).
  destruct (save_before_load house_api empty_object "copy.skp" V2021
              "copy.skp" eq_refl) as (_ & Hwrite & _).
  split; [by rewrite Happend|by rewrite (Hwrite eq_refl)].
Defined.

(** X15: what the boolean of a save operation tells.  [SaveAs] returns
    [true] in every case, whatever the status of the file it opened;
    [AppendToModel] never returns [false]; [WriteNewModel] returns [false]
    exactly when [SUModelCreate] fails, and then it has made no call to add
    or save anything. *)
Theorem save_return_values :
  (forall api this filename version newFilename,
     completion (SaveAs api this filename version newFilename)
       = Returned true) /\
  (forall api this filename,
     completion (AppendToModel api this filename) <> Returned false) /\
  (forall api this filename version,
     completion (WriteNewModel api this filename version) = Returned false
     <-> new_model api <> SU_ERROR_NONE) /\
  (forall api this filename version,
     completion (WriteNewModel api this filename version) = Returned false ->
     calls (WriteNewModel api this filename version)
       = [SUInitialize; SUModelCreate]).
Proof.
  split; [done|]. split; [|split].
  - intros api this filename. unfold AppendToModel.
    by destruct (add_entities _) as [added [x|]].
  - intros api this filename version. unfold WriteNewModel.
    destruct (new_model api) as [|code]; simpl.
    + split; [|done]. by destruct (add_entities this) as [added [x|]].
    + done.
  - intros api this filename version. unfold WriteNewModel.
    destruct (new_model api) as [|code]; simpl; [|done].
    by destruct (add_entities this) as [added [x|]].
Qed.

(** X16: on the values that [SKPVersion] names, [ToSUVersion] is
    one-to-one: two calls of [SaveAs] on the same file that ask for
    different named versions make different save calls.  Every other value
    of the type goes through the [default] branch and is saved as
    [V2021] is. *)
Theorem ToSUVersion_named_one_to_one :
  (forall v1 v2, v1 ∈ named -> v2 ∈ named ->
     (ToSUVersion v1 = ToSUVersion v2 <-> v1 = v2)) /\
  (forall api this filename newFilename v1 v2, v1 ∈ named -> v2 ∈ named ->
     (calls (SaveAs api this filename v1 newFilename)
        = calls (SaveAs api this filename v2 newFilename) <-> v1 = v2)) /\
  (forall v, v ∉ named -> ToSUVersion v = SUModelVersion_SU2021) /\
  (forall api this filename newFilename v, v ∉ named ->
     SaveAs api this filename v newFilename
       = SaveAs api this filename V2021 newFilename) /\
  (forall api this filename v, v ∉ named ->
     WriteNewModel api this filename v
       = WriteNewModel_latest api this filename).
Proof.
  assert (forall v, v ∈ named <-> (0 <= v <= 8)%Z) as Hnamed.
  { intros v. unfold named. rewrite !elem_of_cons, elem_of_nil.
    unfold V2013, V2014, V2015, V2016, V2017, V2018, V2019, V2020, V2021.
    lia. }
  assert (forall v1 v2, v1 ∈ named -> v2 ∈ named ->
            ToSUVersion v1 = ToSUVersion v2 -> v1 = v2) as Hinj.
  { intros v1 v2 H1%Hnamed H2%Hnamed.
    assert (v1 = 0 \/ v1 = 1 \/ v1 = 2 \/ v1 = 3 \/ v1 = 4 \/ v1 = 5
            \/ v1 = 6 \/ v1 = 7 \/ v1 = 8)%Z as C1 by lia.
    assert (v2 = 0 \/ v2 = 1 \/ v2 = 2 \/ v2 = 3 \/ v2 = 4 \/ v2 = 5
            \/ v2 = 6 \/ v2 = 7 \/ v2 = 8)%Z as C2 by lia.
    clear H1 H2.
    repeat destruct C1 as [->|C1]; try subst v1;
      repeat destruct C2 as [->|C2]; try subst v2; done. }
  assert (forall v, v ∉ named -> ToSUVersion v = SUModelVersion_SU2021)
    as Hdefault.
  { intros v Hv. rewrite Hnamed in Hv. unfold ToSUVersion.
    destruct v as [|p|p]; [lia| |done].
    repeat (destruct p as [p|p|]; try done; try lia). }
  split; [|split; [|split; [|split]]].
  - intros v1 v2 H1 H2. split; [by apply Hinj|by intros ->].
  - intros api this filename newFilename v1 v2 H1 H2. split; [|by intros ->].
    unfold SaveAs. cbn [calls]. intros [= Hv]. by apply Hinj.
  - exact Hdefault.
  - intros api this filename newFilename v Hv. unfold SaveAs.
    by rewrite (Hdefault v Hv).
  - intros api this filename v Hv. unfold WriteNewModel_latest, WriteNewModel.
    by rewrite (Hdefault v Hv).
Qed.

Lemma ToSUVersion_named_one_to_one_witness :
  ToSUVersion V2019 <> ToSUVersion V2020 /\
  ToSUVersion 42%Z = ToSUVersion V2021.
Proof.
  split.
  - intros Heq.
    apply (proj1 ToSUVersion_named_one_to_one V2019 V2020) in Heq;
      [discriminate| |];
      apply (bool_decide_unpack _); vm_compute; exact I.
  - apply (proj1 (proj2 (proj2 ToSUVersion_named_one_to_one)) 42%Z).
    apply (bool_decide_unpack _). vm_compute. exact I.
Defined.
